(** * export-obsidian: a shallow embedding of [export-obsidian.py]

    The script exports one markdown note together with the files it links
    to into a flat output directory.  This development embeds its four
    functions ([parse_arguments], [find_linked_files],
    [find_asset_references], [copy_files_to_output]) and [main] over a
    small model of the Python runtime they rely on: the three regular
    expressions of the script run on a backtracking matcher, [pathlib]
    paths are lexical component lists, and the file system is a finite map
    from resolved locations to files and directories.

    Text is modelled as [string], a sequence of bytes.  The script reads
    UTF-8 text; every character its patterns and tests name ('[', ']',
    '(', ')', '!', '|', '.', '/', the letters of '.md' and of the URL
    schemes, and the newline) is ASCII, and no byte of a multi-byte UTF-8
    sequence is ASCII, so matching on bytes and on code points agree. *)

From Stdlib Require Import Ascii.
From stdpp Require Import gmap strings list fin_maps pretty.

Set Warnings "-clear-no-such-hyp".


(** ** Strings *)

Module Str.

Definition newline : ascii := "010"%char.

Fixpoint length (s : string) : nat :=
  match s with
  | EmptyString => 0
  | String _ s' => S (length s')
  end.

(** [s[:n]] *)
Fixpoint take (n : nat) (s : string) : string :=
  match n, s with
  | S n', String c s' => String c (take n' s')
  | _, _ => EmptyString
  end.

(** [s.startswith(p)] *)
Fixpoint startswith (p s : string) : bool :=
  match p, s with
  | EmptyString, _ => true
  | String a p', String b s' => if Ascii.eqb a b then startswith p' s' else false
  | String _ _, EmptyString => false
  end.

(** [s.endswith(p)]: [p] is a prefix of some suffix of [s] of the same
    length. *)
Fixpoint endswith (p s : string) : bool :=
  if String.eqb p s then true
  else match s with
       | EmptyString => false
       | String _ s' => endswith p s'
       end.

(** [c.lower()] on an ASCII letter; other bytes are unchanged. *)
Definition lower_ascii (c : ascii) : ascii :=
  let n := nat_of_ascii c in
  if (65 <=? n)%nat && (n <=? 90)%nat then ascii_of_nat (n + 32) else c.

(** [s.lower()] *)
Fixpoint lower (s : string) : string :=
  match s with
  | EmptyString => EmptyString
  | String c s' => String (lower_ascii c) (lower s')
  end.

(** [c in s] for a character [c] *)
Fixpoint mem (c : ascii) (s : string) : bool :=
  match s with
  | EmptyString => false
  | String x s' => if Ascii.eqb x c then true else mem c s'
  end.

(** [s.split(sep)] for a one-character separator: the pieces between the
    occurrences of [sep], never an empty list. *)
Fixpoint split (sep : ascii) (s : string) : list string :=
  match s with
  | EmptyString => [EmptyString]
  | String c s' =>
      if Ascii.eqb c sep then EmptyString :: split sep s'
      else match split sep s' with
           | piece :: rest => String c piece :: rest
           | [] => [String c EmptyString]
           end
  end.

(** [sep.join(pieces)] *)
Fixpoint join (sep : string) (pieces : list string) : string :=
  match pieces with
  | [] => EmptyString
  | [p] => p
  | p :: rest => p +:+ sep +:+ join sep rest
  end.

(** The last character of [s], or [d] when [s] is empty. *)
Fixpoint last (s : string) (d : option ascii) : option ascii :=
  match s with
  | EmptyString => d
  | String c s' => last s' (Some c)
  end.

(** [s.rfind(c)], [None] for -1. *)
Fixpoint rfind (c : ascii) (s : string) : option nat :=
  match s with
  | EmptyString => None
  | String x s' =>
      match rfind c s' with
      | Some i => Some (S i)
      | None => if Ascii.eqb x c then Some 0 else None
      end
  end.

Fixpoint drop (n : nat) (s : string) : string :=
  match n, s with
  | S n', String _ s' => drop n' s'
  | _, _ => s
  end.

End Str.

(** ** Regular expressions ([re])

    The fragment of Python's [re] syntax that the script's three patterns
    use, matched by backtracking in the order [re] tries alternatives. *)

Inductive regex : Type :=
| Lit (c : ascii)          (* a literal character, escaped or not *)
| LazyAny                  (* [.*?]: as few non-newline characters as possible *)
| Group (r : regex)        (* [( r )]: capture group 1 *)
| Opt (r : regex)          (* [(?: r )?]: greedy, tried first with [r] *)
| NotBehind (c : ascii)    (* [(?<!c)]: the previous character is not [c] *)
| Seq (r1 r2 : regex).

Fixpoint seq_of (rs : list regex) (last : regex) : regex :=
  match rs with
  | [] => last
  | r :: rs' => Seq r (seq_of rs' last)
  end.

(** A match continues with the character before the position, the text
    from the position on and the text of group 1. *)
Definition cont : Type := option ascii → string → string → option (string * string).

(** The text between position [s] and the later position [s']. *)
Definition consumed (s s' : string) : string :=
  Str.take (Str.length s - Str.length s') s.

Fixpoint lazy_any (k : cont) (prev : option ascii) (s g : string)
  : option (string * string) :=
  match k prev s g with
  | Some res => Some res
  | None =>
      match s with
      | String x s' =>
          if Ascii.eqb x Str.newline then None else lazy_any k (Some x) s' g
      | EmptyString => None
      end
  end.

Fixpoint rmatch (r : regex) (k : cont) (prev : option ascii) (s g : string)
  : option (string * string) :=
  match r with
  | Lit c =>
      match s with
      | String x s' => if Ascii.eqb x c then k (Some x) s' g else None
      | EmptyString => None
      end
  | LazyAny => lazy_any k prev s g
  | Group r1 => rmatch r1 (fun p s' _ => k p s' (consumed s s')) prev s g
  | Opt r1 =>
      match rmatch r1 k prev s g with
      | Some res => Some res
      | None => k prev s g
      end
  | NotBehind c =>
      match prev with
      | Some x => if Ascii.eqb x c then None else k prev s g
      | None => k prev s g
      end
  | Seq r1 r2 => rmatch r1 (rmatch r2 k) prev s g
  end.

(** [re.match] at one position: the text of group 1 and the text after the
    match. *)
Definition match_here (r : regex) (prev : option ascii) (s : string)
  : option (string * string) :=
  rmatch r (fun _ s' g => Some (g, s')) prev s EmptyString.

(** [re.findall(r, s)] for a pattern with one group: the group of every
    match, scanning left to right, each search starting where the previous
    match ended.  [skip] counts the characters of the current match still to
    step over. *)
Fixpoint findall_from (r : regex) (skip : nat) (prev : option ascii) (s : string)
  : list string :=
  match s with
  | EmptyString =>
      match skip, match_here r prev s with
      | 0, Some (g, _) => [g]
      | _, _ => []
      end
  | String c s' =>
      match skip with
      | S n => findall_from r n (Some c) s'
      | 0 =>
          match match_here r prev s with
          | Some (g, rest) =>
              g :: findall_from r (Nat.pred (Str.length s - Str.length rest)) (Some c) s'
          | None => findall_from r 0 (Some c) s'
          end
      end
  end.

Definition findall (r : regex) (s : string) : list string :=
  findall_from r 0 None s.

(** [r'\[\[(.*?)(?:\|.*?)?\]\]'] *)
Definition link_pattern : regex :=
  seq_of [Lit "["; Lit "["; Group LazyAny; Opt (Seq (Lit "|") LazyAny); Lit "]"]
         (Lit "]").

(** [r'!\[.*?\]\((.*?)\)'] *)
Definition image_pattern : regex :=
  seq_of [Lit "!"; Lit "["; LazyAny; Lit "]"; Lit "("; Group LazyAny] (Lit ")").

(** [r'(?<!!)\[.*?\]\((.*?)\)'] *)
Definition asset_pattern : regex :=
  seq_of [NotBehind "!"; Lit "["; LazyAny; Lit "]"; Lit "("; Group LazyAny]
         (Lit ")").

(** ** Paths ([pathlib.PurePosixPath])

    A path is its root ('', '/' or '//') and its components; building one
    from a string drops empty and '.' components, nothing else. *)

Record path : Type := MkPath { root : string; parts : list string }.

Global Instance path_eq_dec : EqDecision path.
Proof. solve_decision. Defined.

(** [posixpath.splitroot]: exactly two leading slashes are a root of their
    own, three or more collapse to one. *)
Definition splitroot (s : string) : string * string :=
  match s with
  | String "/" (String "/" (String "/" r)) => ("/", String "/" (String "/" r))
  | String "/" (String "/" r) => ("//", r)
  | String "/" r => ("/", r)
  | _ => ("", s)
  end.

Definition real_part (x : string) : bool :=
  negb (String.eqb x "") && negb (String.eqb x ".").

(** [Path(s)] *)
Definition Path (s : string) : path :=
  let '(rt, rel) := splitroot s in
  MkPath rt (List.filter real_part (Str.split "/" rel)).

(** [p.name] *)
Definition name (p : path) : string := List.last (parts p) "".

(** [p.parent] *)
Definition parent (p : path) : path := MkPath (root p) (removelast (parts p)).

(** [p / s] for a string [s]: an absolute [s] replaces [p]. *)
Definition joinpath (p : path) (s : string) : path :=
  if Str.startswith "/" s then Path s
  else MkPath (root p) (parts p ++ parts (Path s)).

Infix "//" := joinpath (at level 40, left associativity).

(** [p.suffix]: the name from its last '.', unless that dot starts or ends
    the name. *)
Definition suffix (p : path) : string :=
  let nm := name p in
  match Str.rfind "." nm with
  | Some i => if (0 <? i) && (i <? Str.length nm - 1) then Str.drop i nm else ""
  | None => ""
  end.

(** ** The file system and the process

    Locations are component lists from the root.  Directories are entries
    of their own; there are no symbolic links, permissions or time stamps,
    so [copy2] carries the content only. *)

Inductive node : Type :=
| File (data : string)
| Dir.

Abbreviation loc := (list string).

Inductive event : Type :=
| Stat (p : path)            (* a probe by [exists()] or [is_file()] *)
| Print (line : string)      (* a line on standard output *)
| Stderr (line : string)     (* the message of [sys.exit] *)
| Mkdir (p : path)
| Read (p : path)
| Copy (src dst : path).

Record world : Type := MkWorld {
  fs : gmap loc node;
  cwd : loc;
  trace : list event
}.

Definition log (e : event) (w : world) : world :=
  MkWorld (fs w) (cwd w) (trace w ++ [e]).

Definition with_fs (m : gmap loc node) (w : world) : world :=
  MkWorld m (cwd w) (trace w).

Definition step_into (cur : loc) (c : string) : loc :=
  if String.eqb c ".." then removelast cur else cur ++ [c].

(** Path resolution by the system: every component but the last must lead
    through a directory, and the location reached must exist. *)
Fixpoint walk (m : gmap loc node) (cur : loc) (comps : list string) : option loc :=
  match comps with
  | [] => match m !! cur with Some _ => Some cur | None => None end
  | c :: rest =>
      match m !! cur with
      | Some Dir => walk m (step_into cur c) rest
      | _ => None
      end
  end.

Definition start_of (w : world) (p : path) : loc :=
  if String.eqb (root p) "" then cwd w else [].

Definition locate (w : world) (p : path) : option loc :=
  walk (fs w) (start_of w p) (parts p).

Definition stat (w : world) (p : path) : option node :=
  l ← locate w p; fs w !! l.

(** How a run ends: normally, by [sys.exit], or by an exception that
    nothing catches. *)
Inductive outcome (A : Type) : Type :=
| Done (a : A)
| Exit (status : nat)
| Raise (exn : string).
Arguments Done {A} a.
Arguments Exit {A} status.
Arguments Raise {A} exn.

Definition M (A : Type) : Type := world → outcome A * world.

Global Instance M_ret : MRet M := λ A a w, (Done a, w).

Global Instance M_bind : MBind M := λ A B f m w,
  match m w with
  | (Done a, w') => f a w'
  | (Exit n, w') => (Exit n, w')
  | (Raise e, w') => (Raise e, w')
  end.

(** [print(line)] *)
Definition print (line : string) : M unit := λ w, (Done (), log (Print line) w).

(** [sys.exit(msg)]: the message goes to standard error, the status is 1. *)
Definition sys_exit {A} (msg : string) : M A := λ w, (Exit 1, log (Stderr msg) w).

(** [p.exists()] *)
Definition path_exists (p : path) : M bool := λ w,
  (Done (bool_decide (is_Some (stat w p))), log (Stat p) w).

(** [p.is_file()] *)
Definition is_file (p : path) : M bool := λ w,
  (Done (match stat w p with Some (File _) => true | _ => false end),
   log (Stat p) w).

(** [p.exists() and p.is_file()] *)
Definition exists_and_is_file (p : path) : M bool :=
  e ← path_exists p; if e : bool then is_file p else mret false.

(** Strict UTF-8, as the [utf-8] codec checks it: [open(..., encoding=
    'utf-8')] raises [UnicodeDecodeError] on anything else. *)
Definition byte_in (lo hi : nat) (c : ascii) : bool :=
  (lo <=? nat_of_ascii c) && (nat_of_ascii c <=? hi).

Fixpoint utf8_valid_from (more : list (nat * nat)) (s : string) : bool :=
  match s with
  | EmptyString => match more with [] => true | _ => false end
  | String c s' =>
      match more with
      | (lo, hi) :: more' => byte_in lo hi c && utf8_valid_from more' s'
      | [] =>
          if byte_in 0 127 c then utf8_valid_from [] s'
          else if byte_in 194 223 c then utf8_valid_from [(128, 191)] s'
          else if byte_in 224 224 c then utf8_valid_from [(160, 191); (128, 191)] s'
          else if byte_in 237 237 c then utf8_valid_from [(128, 159); (128, 191)] s'
          else if byte_in 225 239 c then utf8_valid_from [(128, 191); (128, 191)] s'
          else if byte_in 240 240 c
               then utf8_valid_from [(144, 191); (128, 191); (128, 191)] s'
          else if byte_in 241 243 c
               then utf8_valid_from [(128, 191); (128, 191); (128, 191)] s'
          else if byte_in 244 244 c
               then utf8_valid_from [(128, 143); (128, 191); (128, 191)] s'
          else false
      end
  end.

Definition utf8_valid : string → bool := utf8_valid_from [].

(** Universal newlines of text mode: '\r\n' and a lone '\r' are read as
    '\n'. *)
Fixpoint universal_newlines (s : string) : string :=
  match s with
  | EmptyString => EmptyString
  | String c s' =>
      if Ascii.eqb c "013" then
        match s' with
        | String "010" _ => universal_newlines s'
        | _ => String Str.newline (universal_newlines s')
        end
      else String c (universal_newlines s')
  end.

(** [with open(p, 'r', encoding='utf-8') as file: content = file.read()] *)
Definition read_text (p : path) : M string := λ w,
  match stat w p with
  | Some (File data) =>
      if utf8_valid data then (Done (universal_newlines data), log (Read p) w)
      else (Raise "UnicodeDecodeError", log (Read p) w)
  | Some Dir => (Raise "IsADirectoryError", w)
  | None => (Raise "FileNotFoundError", w)
  end.

(** [p.mkdir(parents=True, exist_ok=True)]: the missing directories along
    [comps] are created one after the other; a component that exists and is
    not a directory is an error. *)
Fixpoint mkdirs (m : gmap loc node) (cur : loc) (comps : list string)
  : option (gmap loc node) :=
  match m !! cur with
  | Some Dir =>
      match comps with
      | [] => Some m
      | c :: rest =>
          let next := step_into cur c in
          match m !! next with
          | Some _ => mkdirs m next rest
          | None =>
              if String.eqb c ".." then None
              else mkdirs (<[next := Dir]> m) next rest
          end
      end
  | _ => None
  end.

Definition mkdir_parents (p : path) : M unit := λ w,
  match mkdirs (fs w) (start_of w p) (parts p) with
  | Some m => (Done (), log (Mkdir p) (with_fs m w))
  | None => (Raise "OSError", w)
  end.

(** [os.path.samefile(a, b)], false when either does not exist. *)
Definition samefile (w : world) (a b : path) : bool :=
  match locate w a, locate w b with
  | Some la, Some lb => bool_decide (la = lb)
  | _, _ => false
  end.

(** [open(p, 'wb')] followed by writing [data]: the directory of [p] must
    exist and [p] must not name a directory. *)
Definition write_file (w : world) (p : path) (data : string)
  : option (gmap loc node) :=
  match parts p with
  | [] => None
  | _ :: _ =>
      if String.eqb (name p) ".." then None
      else
        match locate w (parent p) with
        | Some d =>
            match fs w !! d, fs w !! (d ++ [name p]) with
            | Some Dir, Some Dir => None
            | Some Dir, _ => Some (<[d ++ [name p] := File data]> (fs w))
            | _, _ => None
            end
        | None => None
        end
  end.

(** [shutil.copy2(src, dst)]: a [dst] that is a directory stands for the
    file of [src]'s name in it; copying a file onto itself is refused.  The
    event records the call. *)
Definition copy2 (src dst : path) : M unit := λ w,
  let real_dst := match stat w dst with
                  | Some Dir => dst // name src
                  | _ => dst
                  end in
  if samefile w src real_dst then (Raise "SameFileError", w)
  else
    match stat w src with
    | Some (File data) =>
        match write_file w real_dst data with
        | Some m => (Done (), log (Copy src dst) (with_fs m w))
        | None => (Raise "OSError", w)
        end
    | Some Dir => (Raise "IsADirectoryError", w)
    | None => (Raise "FileNotFoundError", w)
    end.

(** ** The script *)

Definition quoted (s : string) : string := "'" +:+ s +:+ "'".

(** [parse_arguments], after [argparse] has split the command line into
    [target_file] and [output_directory]. *)
Definition parse_arguments (target_file output_directory : string) : M unit :=
  let target_path := Path target_file in
  e ← path_exists target_path;
  if negb e then
    sys_exit ("Error: Target file " +:+ quoted target_file +:+ " does not exist.")
  else if negb (String.eqb (Str.lower (suffix target_path)) ".md") then
    sys_exit ("Error: Target file " +:+ quoted target_file
              +:+ " is not a markdown file.")
  else
    let output_path := Path output_directory in
    mkdir_parents output_path.

(** The '.md' rule of [find_linked_files]. *)
Definition with_md (m : string) : string :=
  if Str.endswith ".md" (Str.lower m) then m else m +:+ ".md".

(** The loop of [find_linked_files] over [matches]. *)
Fixpoint linked_loop (base_dir : path) (matches : list string)
    (linked_files : list path) : M (list path) :=
  match matches with
  | [] => mret linked_files
  | m :: rest =>
      let file_path := with_md m in
      let absolute_path := Path file_path in
      found ← exists_and_is_file absolute_path;
      if found : bool then linked_loop base_dir rest (linked_files ++ [absolute_path])
      else
        let relative_path := base_dir // file_path in
        found ← exists_and_is_file relative_path;
        if found : bool
        then linked_loop base_dir rest (linked_files ++ [relative_path])
        else
          print ("Warning: Linked file " +:+ quoted file_path +:+ " not found.");;
          linked_loop base_dir rest linked_files
  end.

Definition find_linked_files (target_file_path : string) : M (list path) :=
  let target_path := Path target_file_path in
  let base_dir := parent target_path in
  content ← read_text target_path;
  let matches := findall link_pattern content in
  linked_loop base_dir matches [].

(** [match.startswith(('http://', 'https://', 'ftp://'))] *)
Definition is_url (m : string) : bool :=
  Str.startswith "http://" m || Str.startswith "https://" m
  || Str.startswith "ftp://" m.

(** The loop of [find_asset_references] over [all_matches]. *)
Fixpoint asset_loop (base_dir : path) (all_matches : list string)
    (assets : list path) : M (list path) :=
  match all_matches with
  | [] => mret assets
  | m :: rest =>
      if is_url m then asset_loop base_dir rest assets
      else
        let absolute_path := Path m in
        found ← exists_and_is_file absolute_path;
        if found : bool then asset_loop base_dir rest (assets ++ [absolute_path])
        else
          let relative_path := base_dir // m in
          found ← exists_and_is_file relative_path;
          if found : bool then asset_loop base_dir rest (assets ++ [relative_path])
          else
            print ("Warning: Referenced asset " +:+ quoted m +:+ " not found.");;
            asset_loop base_dir rest assets
  end.

(** The references that [find_asset_references] extracts: the images
    first, then the links that are not images. *)
Definition asset_matches_of (content : string) : list string :=
  let image_matches := findall image_pattern content in
  let asset_matches := findall asset_pattern content in
  image_matches ++ asset_matches.

Definition find_asset_references (target_file_path : string) : M (list path) :=
  let target_path := Path target_file_path in
  let base_dir := parent target_path in
  content ← read_text target_path;
  let all_matches := asset_matches_of content in
  asset_loop base_dir all_matches [].

(** The filename a file is copied under, given the filenames used so far
    (the conflict handling that both loops of [copy_files_to_output]
    share). *)
Definition output_filename_of (file_path : path) (used_filenames : gset string)
  : string :=
  let output_filename := name file_path in
  if decide (output_filename ∈ used_filenames) then
    let parent_dir := name (parent file_path) in
    let name_parts := Str.split "." output_filename in
    if 1 <? length name_parts then
      hd "" name_parts +:+ "_" +:+ parent_dir +:+ "."
        +:+ Str.join "." (tl name_parts)
    else output_filename +:+ "_" +:+ parent_dir
  else output_filename.

(** One loop of [copy_files_to_output]; [what] is the word of its message. *)
Fixpoint copy_loop (what : string) (output_path : path) (files : list path)
    (used_filenames : gset string) : M (gset string) :=
  match files with
  | [] => mret used_filenames
  | file_path :: rest =>
      let output_filename := output_filename_of file_path used_filenames in
      let output_file_path := output_path // output_filename in
      copy2 file_path output_file_path;;
      print ("Copied " +:+ what +:+ ": " +:+ name file_path +:+ " as "
             +:+ output_filename);;
      copy_loop what output_path rest ({[output_filename]} ∪ used_filenames)
  end.

Definition copy_files_to_output (target_file_path : string)
    (linked_files assets : list path) (output_dir : string) : M unit :=
  let output_path := Path output_dir in
  let target_path := Path target_file_path in
  let used_filenames : gset string := ∅ in
  let target_output_path := output_path // name target_path in
  copy2 target_path target_output_path;;
  let used_filenames := {[name target_path]} ∪ used_filenames in
  print ("Copied target file: " +:+ name target_path);;
  used_filenames ← copy_loop "linked file" output_path linked_files used_filenames;
  _ ← copy_loop "asset" output_path assets used_filenames;
  mret ().

Definition main (target_file output_directory : string) : M unit :=
  parse_arguments target_file output_directory;;
  print ("Exporting " +:+ quoted target_file +:+ " and linked files to "
         +:+ quoted output_directory +:+ "...");;
  linked_files ← find_linked_files target_file;
  assets ← find_asset_references target_file;
  copy_files_to_output target_file linked_files assets output_directory;;
  print (String Str.newline "Export complete!");;
  print "- Target file: 1";;
  print ("- Linked files: " +:+ pretty (length linked_files));;
  print ("- Assets: " +:+ pretty (length assets));;
  print ("- Total files copied: "
         +:+ pretty (1 + length linked_files + length assets)).

(** The exit status of the process. *)
Definition exit_status {A} (o : outcome A) : nat :=
  match o with
  | Done _ => 0
  | Exit n => n
  | Raise _ => 1
  end.

(** * Definitions for the properties *)

(** ** The '.md' rule for wiki-link targets *)

(** The name ends in '.md', in any letter case. *)
Definition ends_with_md (m : string) : Prop :=
  ∃ pre x y, m = pre +:+ String "." (String x (String y ""))
    ∧ (x = "m"%char ∨ x = "M"%char) ∧ (y = "d"%char ∨ y = "D"%char).

(** ** Running the monad *)

Definition add_trace (w : world) (evs : list event) : world :=
  MkWorld (fs w) (cwd w) (trace w ++ evs).

(** What the probes observe. *)
Definition present (w : world) (p : path) : bool :=
  bool_decide (is_Some (stat w p)).

Definition regular (w : world) (p : path) : bool :=
  match stat w p with Some (File _) => true | _ => false end.

(** The probes of [p.exists() and p.is_file()]: [is_file] is only asked
    when [exists] said yes. *)
Definition probes (w : world) (p : path) : list event :=
  if present w p then [Stat p; Stat p] else [Stat p].

(** The two-step resolution of one reference string, as a function of the
    file system: the path as it is first, then below [base_dir]. *)
Definition resolve (w : world) (base_dir : path) (s : string) : option path :=
  if regular w (Path s) then Some (Path s)
  else if regular w (base_dir // s) then Some (base_dir // s)
  else None.

(** The events of resolving [s]; [warning] is the line printed when
    neither candidate is a regular file. *)
Definition resolution_events (w : world) (base_dir : path) (s warning : string)
  : list event :=
  probes w (Path s)
  ++ (if regular w (Path s) then []
      else probes w (base_dir // s)
           ++ (if regular w (base_dir // s) then [] else [Print warning])).

Definition linked_warning (file_path : string) : string :=
  "Warning: Linked file " +:+ quoted file_path +:+ " not found.".

Definition asset_warning (m : string) : string :=
  "Warning: Referenced asset " +:+ quoted m +:+ " not found.".

Definition local_refs (all_matches : list string) : list string :=
  List.filter (λ m, negb (is_url m)) all_matches.

(** ** URL references *)

(** The reference begins with one of the three URL schemes. *)
Definition remote (m : string) : Prop :=
  ∃ r, m = "http://" +:+ r ∨ m = "https://" +:+ r ∨ m = "ftp://" +:+ r.

Definition missing_message (target_file : string) : string :=
  "Error: Target file " +:+ quoted target_file +:+ " does not exist.".

Definition not_markdown_message (target_file : string) : string :=
  "Error: Target file " +:+ quoted target_file +:+ " is not a markdown file.".

(** ** The conflict rule of [copy_files_to_output] *)

(** The name for a file whose own name is taken, in the words of the
    specification: the stem before the first '.', the name of the parent
    directory, and what followed the stem. *)
Definition renamed_with_dot (p : path) (stem rest : string) : string :=
  stem +:+ "_" +:+ name (parent p) +:+ "." +:+ rest.

Definition renamed_without_dot (p : path) : string :=
  name p +:+ "_" +:+ name (parent p).

(** The copies that [copy_files_to_output] makes, as (source, output
    filename) pairs in the order of the copies: the loop over [files]
    starting from the set [used] of names taken. *)
Fixpoint plan_loop (files : list path) (used : gset string) : list (path * string) :=
  match files with
  | [] => []
  | file_path :: rest =>
      let output_filename := output_filename_of file_path used in
      (file_path, output_filename)
        :: plan_loop rest ({[output_filename]} ∪ used)
  end.

Definition used_after (files : list path) (used : gset string) : gset string :=
  list_to_set (plan_loop files used).*2 ∪ used.

Definition copy_plan (target_path : path) (linked_files assets : list path)
  : list (path * string) :=
  (target_path, name target_path)
    :: plan_loop (linked_files ++ assets) ({[name target_path]} ∪ ∅).

(** The stem before the first '.' and what follows that dot. *)
Fixpoint cut_first_dot (s : string) : option (string * string) :=
  match s with
  | EmptyString => None
  | String c s' =>
      if Ascii.eqb c "." then Some (EmptyString, s')
      else match cut_first_dot s' with
           | Some (stem, rest) => Some (String c stem, rest)
           | None => None
           end
  end.

(** The disambiguated name of a file. *)
Definition renamed (p : path) : string :=
  match cut_first_dot (name p) with
  | Some (stem, rest) => renamed_with_dot p stem rest
  | None => renamed_without_dot p
  end.


(** ** The copies of a run *)

Definition copied_line (what : string) (p : path) (n : string) : string :=
  "Copied " +:+ what +:+ ": " +:+ name p +:+ " as " +:+ n.

(** The events of one loop of [copy_files_to_output] that runs to its end:
    each file of the plan is copied and reported. *)
Definition copy_log (what : string) (output_path : path)
    (plan : list (path * string)) : list event :=
  flat_map (λ e, [Copy e.1 (output_path // e.2); Print (copied_line what e.1 e.2)])
           plan.

(** The output filenames among the events of a run, in order. *)
Definition copied_as (evs : list event) : list (path * path) :=
  omap (λ e, match e with Copy src dst => Some (src, dst) | _ => None end) evs.

Definition exporting_line (target_file output_directory : string) : string :=
  "Exporting " +:+ quoted target_file +:+ " and linked files to "
  +:+ quoted output_directory +:+ "...".

(** The lines that end a run. *)
Definition summary (linked_files assets : list path) : list event :=
  [ Print (String Str.newline "Export complete!");
    Print "- Target file: 1";
    Print ("- Linked files: " +:+ pretty (length linked_files));
    Print ("- Assets: " +:+ pretty (length assets));
    Print ("- Total files copied: "
           +:+ pretty (1 + length linked_files + length assets)) ].

(** The linked files and the assets that [main] finds for a target with
    the text [content], in the file system of [w]. *)
Definition linked_files_of (w : world) (target_file content : string) : list path :=
  omap (λ m, resolve w (parent (Path target_file)) (with_md m))
       (findall link_pattern content).

Definition assets_of (w : world) (target_file content : string) : list path :=
  omap (resolve w (parent (Path target_file)))
       (local_refs (asset_matches_of content)).

(** The events of the two searches. *)
Definition search_events (w : world) (target_file content : string) : list event :=
  [Read (Path target_file)]
  ++ flat_map (λ m, resolution_events w (parent (Path target_file)) (with_md m)
                      (linked_warning (with_md m)))
       (findall link_pattern content)
  ++ [Read (Path target_file)]
  ++ flat_map (λ m, resolution_events w (parent (Path target_file)) m
                      (asset_warning m))
       (local_refs (asset_matches_of content)).

(** What [main] does after [parse_arguments]. *)
Definition export (target_file output_directory : string) : M unit :=
  print (exporting_line target_file output_directory);;
  linked_files ← find_linked_files target_file;
  assets ← find_asset_references target_file;
  copy_files_to_output target_file linked_files assets output_directory;;
  print (String Str.newline "Export complete!");;
  print "- Target file: 1";;
  print ("- Linked files: " +:+ pretty (length linked_files));;
  print ("- Assets: " +:+ pretty (length assets));;
  print ("- Total files copied: "
         +:+ pretty (1 + length linked_files + length assets)).

(** ** Vaults to run the script on *)

(** A note that links itself twice. *)
Definition vault_twice : gmap loc node :=
  list_to_map
    [ ([], Dir);
      (["v"], Dir);
      (["v"; "t.md"], File "[[t]] and again [[t]]") ].

(** A note and two notes of its name in two directories. *)
Definition vault_index : gmap loc node :=
  list_to_map
    [ ([], Dir);
      (["vault"], Dir);
      (["vault"; "index.md"], File "[[A/index]] [[B/index]]");
      (["vault"; "A"], Dir);
      (["vault"; "A"; "index.md"], File "a");
      (["vault"; "B"], Dir);
      (["vault"; "B"; "index.md"], File "b") ].

(** A note that links a page of another directory, then twice a page of
    that name in its own. *)
Definition vault_pages : gmap loc node :=
  list_to_map
    [ ([], Dir);
      (["v"], Dir);
      (["v"; "note.md"], File "[[other/x]] [[x]] [[x]]");
      (["v"; "x.md"], File "mine");
      (["v"; "other"], Dir);
      (["v"; "other"; "x.md"], File "theirs") ].

(** A note with a link before an image, and one with a wiki-link before an
    image on one line. *)
Definition vault_links : gmap loc node :=
  list_to_map
    [ ([], Dir);
      (["v"], Dir);
      (["v"; "note.md"], File "[doc](b.pdf) then ![pic](a.png)");
      (["v"; "wiki.md"], File "[[Other Note]] and ![img](images/pic.png)");
      (["v"; "Other Note.md"], File "other");
      (["v"; "a.png"], File "A");
      (["v"; "b.pdf"], File "B");
      (["v"; "images"], Dir);
      (["v"; "images"; "pic.png"], File "PNG") ].

(** A note with URLs in both syntaxes and a page that does not exist. *)
Definition vault_urls : gmap loc node :=
  list_to_map
    [ ([], Dir);
      (["v"], Dir);
      (["v"; "note.md"],
       File "[[https://x.org/README.md]] [[Missing Page]] [web](https://x.org/a.png)");
      (["v"; "plain.txt"], File "text") ].

Definition run (m : gmap loc node) (target_file output_directory : string)
  : outcome unit * world :=
  main target_file output_directory (MkWorld m [] []).

Definition printed (evs : list event) : list string :=
  omap (λ e, match e with Print line => Some line | _ => None end) evs.

(** ** Components and filenames *)

(** A component as [Path] builds them. *)
Definition good_part (c : string) : Prop :=
  c ≠ "" ∧ c ≠ "." ∧ Str.mem "/" c = false.

Definition wf_path (p : path) : Prop := Forall good_part (parts p).

(** A component that names an entry of its directory. *)
Definition good_name (c : string) : Prop := good_part c ∧ c ≠ "..".

(** ** Well-formed file systems *)

(** Every entry lies in a directory. *)
Definition wf_fs (m : gmap loc node) : Prop :=
  ∀ l c n, m !! (l ++ [c]) = Some n → m !! l = Some Dir.

(** The root and the working directory are directories. *)
Definition wf_world (w : world) : Prop :=
  wf_fs (fs w) ∧ fs w !! [] = Some Dir ∧ fs w !! cwd w = Some Dir.

(** The location a path denotes, if it denotes one. *)
Definition place (w : world) (p : path) : loc :=
  foldl step_into (start_of w p) (parts p).

(** [l] lies inside the directory at [d]. *)
Definition below (d l : loc) : Prop := ∃ c rest, l = d ++ c :: rest.

Global Instance below_dec (d l : loc) : Decision (below d l).
Proof.
  refine (cast_if (decide (take (length d) l = d ∧ length d < length l)));
    unfold below.
  - destruct a as [H1 H2]. rewrite <- (take_drop (length d) l), H1.
    destruct (drop (length d) l) as [|c rest] eqn:E.
    + apply (f_equal length) in E. rewrite length_drop in E. simpl in E. lia.
    + by exists c, rest.
  - intros (c & rest & ->). apply n. split.
    + by rewrite take_app_length.
    + rewrite length_app. simpl. lia.
Defined.

(** *** What a copy into a directory may change *)

(** From [m] to [m'] nothing changes outside the directory at [d], and no
    directory is lost. *)
Definition grows (d : loc) (m m' : gmap loc node) : Prop :=
  (∀ l, ¬ below d l → m' !! l = m !! l)
  ∧ (∀ l, m !! l = Some Dir → m' !! l = Some Dir).

Global Instance node_eq_dec : EqDecision node.
Proof. solve_decision. Defined.

(** Whether every entry lies in a directory can be checked entry by
    entry. *)
Global Instance wf_fs_dec (m : gmap loc node) : Decision (wf_fs m).
Proof.
  refine
    (match decide (map_Forall (λ l _, l = [] ∨ m !! removelast l = Some Dir) m) with
     | left H => left _
     | right H => right _
     end).
  - intros l c n Hl. apply H in Hl as [Hl|Hl].
    + by destruct l.
    + by rewrite removelast_last in Hl.
  - intros Hwf. apply H. intros l n Hl.
    destruct l as [|c l _] using rev_ind; [by left|].
    right. rewrite removelast_last. by eapply Hwf.
Defined.

Global Instance wf_world_dec (w : world) : Decision (wf_world w).
Proof. unfold wf_world. apply _. Defined.

(** What stays true of the world while files are copied into the
    directory at [d], the place of [out]. *)
Definition kept (d : loc) (out : path) (w w' : world) : Prop :=
  wf_world w' ∧ grows d (fs w) (fs w') ∧ cwd w' = cwd w
  ∧ locate w' out = Some d ∧ fs w' !! d = Some Dir.

(** ** Two runs *)

(** The file system with the directory at [d] emptied. *)
Definition emptied (d : loc) (m : gmap loc node) : gmap loc node :=
  filter (λ e, ¬ below d e.1) m.

(** Nothing lies inside the output directory: it is empty, or not there. *)
Definition fresh (w : world) (output_directory : string) : Prop :=
  map_Forall (λ l _, ¬ below (place w (Path output_directory)) l) (fs w).

Global Instance fresh_dec (w : world) (out : string) : Decision (fresh w out).
Proof. unfold fresh. apply _. Defined.

(** Three pages of one name in directories of one name. *)
Definition vault_subs : gmap loc node :=
  list_to_map
    [ ([], Dir);
      (["a"], Dir); (["a"; "sub"], Dir); (["a"; "sub"; "x.md"], File "first");
      (["b"], Dir); (["b"; "sub"], Dir); (["b"; "sub"; "x.md"], File "second");
      (["c"], Dir); (["c"; "sub"], Dir); (["c"; "sub"; "x.md"], File "third");
      (["v"], Dir);
      (["v"; "note.md"], File "[[a/sub/x]] [[b/sub/x]] [[c/sub/x]]") ].

(** ** Matching *)

(** The end of a match: group 1 and the text that follows. *)
Definition final : cont := λ _ s' g, Some (g, s').

(** What the patterns still have to match after their lazy parts. *)
Definition k_paren : cont := rmatch (Lit ")") final.

Definition k_close : cont :=
  rmatch (Lit "]") (rmatch (Lit "(") (rmatch (Group LazyAny) k_paren)).

Definition k_end : cont := rmatch (Lit "]") (rmatch (Lit "]") final).

Definition k_opt : cont := rmatch (Opt (Seq (Lit "|") LazyAny)) k_end.

(** *** The three patterns on a well-formed link *)

(** The characters of a link that its parts must not contain. *)
Definition clean (s : string) : bool :=
  negb (Str.mem "[" s) && negb (Str.mem "]" s) && negb (Str.mem "(" s)
  && negb (Str.mem ")" s) && negb (Str.mem "!" s) && negb (Str.mem "|" s)
  && negb (Str.mem Str.newline s).

(** Text between links: no bracket, parenthesis or exclamation mark. *)
Definition prose (s : string) : bool :=
  negb (Str.mem "[" s) && negb (Str.mem "]" s) && negb (Str.mem "(" s)
  && negb (Str.mem ")" s) && negb (Str.mem "!" s).

(** ** Documents of well-formed links *)

Inductive item : Type :=
| Text (s : string)
| Wiki (target : string) (display : option string)
| Image (alt url : string)
| Link (text url : string).

(** What follows the opening bracket of a link or an image. *)
Definition body (text url : string) : string := text +:+ "](" +:+ url +:+ ")".

Definition render_item (i : item) : string :=
  match i with
  | Text s => s
  | Wiki t None => "[[" +:+ t +:+ "]]"
  | Wiki t (Some d) => "[[" +:+ t +:+ "|" +:+ d +:+ "]]"
  | Image a u => String "!" (String "[" (body a u))
  | Link t u => String "[" (body t u)
  end.

Fixpoint render (doc : list item) : string :=
  match doc with
  | [] => ""
  | i :: rest => render_item i +:+ render rest
  end.

Definition wf_item (i : item) : bool :=
  match i with
  | Text s => prose s
  | Wiki t None => clean t
  | Wiki t (Some d) => clean t && clean d
  | Image a u => clean a && clean u
  | Link t u => clean t && clean u
  end.

Definition wf_doc (doc : list item) : bool := forallb wf_item doc.

Definition wiki_targets (doc : list item) : list string :=
  omap (λ i, match i with Wiki t _ => Some t | _ => None end) doc.

Definition image_urls (doc : list item) : list string :=
  omap (λ i, match i with Image _ u => Some u | _ => None end) doc.

Definition link_urls (doc : list item) : list string :=
  omap (λ i, match i with Link _ u => Some u | _ => None end) doc.

(** The urls of the links and images, in the order of the document. *)
Definition urls (doc : list item) : list string :=
  omap (λ i, match i with Image _ u | Link _ u => Some u | _ => None end) doc.

(** What a scan that has passed an opening bracket meets on the rest of the
    line: the first link or image closes the match and its url is taken. *)
Fixpoint line_link (doc : list item) : option (string * list item) :=
  match doc with
  | [] => None
  | Text s :: rest => if Str.mem Str.newline s then None else line_link rest
  | Wiki _ _ :: rest => line_link rest
  | Image _ u :: rest => Some (u, rest)
  | Link _ u :: rest => Some (u, rest)
  end.

(** No image comes before the next link or the end of the line. *)
Fixpoint line_clear (doc : list item) : bool :=
  match doc with
  | [] => true
  | Text s :: rest => Str.mem Str.newline s || line_clear rest
  | Wiki _ _ :: rest => line_clear rest
  | Image _ _ :: _ => false
  | Link _ _ :: _ => true
  end.

(** No wiki-link is followed on its line by an image with no link between
    the two. *)
Fixpoint images_clear (doc : list item) : bool :=
  match doc with
  | [] => true
  | Wiki _ _ :: rest => line_clear rest && images_clear rest
  | _ :: rest => images_clear rest
  end.

(** A link before an image, and a wiki-link before an image on its line. *)
Definition doc_link_image : list item :=
  [Link "doc" "b.pdf"; Text " then "; Image "pic" "a.png"].

Definition doc_wiki_image : list item :=
  [Wiki "Other Note" None; Text " and "; Image "img" "images/pic.png"].

(** ** What a match can capture *)

(** A continuation that hands group 1 on as it is. *)
Definition keeps_group (k : cont) : Prop :=
  ∀ p s g res, k p s g = Some res → res.1 = g.

(** ** What the searches do *)


(** ** What the copies write *)








(** A directory named like a note, and a note that is not UTF-8. *)
Definition vault_odd : gmap loc node :=
  list_to_map
    [ ([], Dir);
      (["v"], Dir);
      (["v"; "dir.md"], Dir);
      (["v"; "bad.md"], File (String (ascii_of_nat 255) "")) ].

(** * Properties *)

(** ** Strings *)

Lemma app_cons (c : ascii) (s t : string) : String c s +:+ t = String c (s +:+ t).
Proof. reflexivity. Qed.

Lemma app_empty_l (s : string) : "" +:+ s = s.
Proof. reflexivity. Qed.

Lemma app_assoc' (s t u : string) : (s +:+ t) +:+ u = s +:+ t +:+ u.
Proof. induction s as [|c s IH]; [done|]. by rewrite !app_cons, IH. Qed.

Lemma length_append (s t : string) :
  Str.length (s +:+ t) = Str.length s + Str.length t.
Proof. induction s as [|c s IH]; [done|]. rewrite app_cons. simpl. by rewrite IH. Qed.

Lemma eqb_ascii_refl (c : ascii) : Ascii.eqb c c = true.
Proof. by apply Ascii.eqb_eq. Qed.

Lemma endswith_app (p pre : string) : Str.endswith p (pre +:+ p) = true.
Proof.
  induction pre as [|c pre IH].
  - rewrite app_empty_l. destruct p; cbn [Str.endswith]; by rewrite String.eqb_refl.
  - rewrite app_cons. cbn [Str.endswith]. by destruct (String.eqb p _).
Qed.

Lemma endswith_inv (p s : string) :
  Str.endswith p s = true → ∃ pre, s = pre +:+ p.
Proof.
  induction s as [|c s IH]; cbn [Str.endswith].
  - destruct (String.eqb p "") eqn:E; [|done].
    apply String.eqb_eq in E as ->. by exists "".
  - destruct (String.eqb p (String c s)) eqn:E.
    + apply String.eqb_eq in E as ->. by exists "".
    + intros [pre ->]%IH. by exists (String c pre).
Qed.

Lemma lower_app (s t : string) : Str.lower (s +:+ t) = Str.lower s +:+ Str.lower t.
Proof. induction s as [|c s IH]; [done|]. rewrite app_cons. simpl. by rewrite IH, app_cons. Qed.

Lemma lower_ascii_dot (c : ascii) : Str.lower_ascii c = "."%char → c = "."%char.
Proof. by destruct c as [[] [] [] [] [] [] [] []]. Qed.

Lemma lower_ascii_m (c : ascii) :
  Str.lower_ascii c = "m"%char → c = "m"%char ∨ c = "M"%char.
Proof. destruct c as [[] [] [] [] [] [] [] []]; intros [=]; auto. Qed.

Lemma lower_ascii_d (c : ascii) :
  Str.lower_ascii c = "d"%char → c = "d"%char ∨ c = "D"%char.
Proof. destruct c as [[] [] [] [] [] [] [] []]; intros [=]; auto. Qed.

(** A string whose lower-case form ends in three given characters ends in
    three characters that lower to them. *)
Lemma lower_eq_app3 (s pre : string) (a b c : ascii) :
  Str.lower s = pre +:+ String a (String b (String c "")) →
  ∃ pre' x y z, s = pre' +:+ String x (String y (String z ""))
    ∧ Str.lower_ascii x = a ∧ Str.lower_ascii y = b ∧ Str.lower_ascii z = c.
Proof.
  revert pre. induction s as [|h s IH]; intros pre.
  - destruct pre; discriminate.
  - destruct pre as [|h' pre]; simpl.
    + rewrite app_empty_l. intros [= <- Hs].
      destruct s as [|y [|z [|? ?]]]; simplify_eq/=.
      by exists "", h, y, z.
    + rewrite app_cons. intros [= _ Hs].
      destruct (IH _ Hs) as (pre' & x & y & z & -> & ?).
      by exists (String h pre'), x, y, z.
Qed.

(** ** The '.md' rule *)

Lemma endswith_md_iff (m : string) :
  Str.endswith ".md" (Str.lower m) = true ↔ ends_with_md m.
Proof.
  split.
  - intros [pre Hpre]%endswith_inv.
    apply lower_eq_app3 in Hpre as (pre' & x & y & z & -> & Hx & Hy & Hz).
    apply lower_ascii_dot in Hx as ->.
    exists pre', y, z. auto using lower_ascii_m, lower_ascii_d.
  - intros (pre & x & y & -> & Hx & Hy).
    rewrite lower_app.
    replace (Str.lower (String "." (String x (String y "")))) with ".md";
      [apply endswith_app|].
    by destruct Hx as [-> | ->], Hy as [-> | ->].
Qed.

Lemma with_md_ends (m : string) : ends_with_md (with_md m).
Proof.
  unfold with_md. destruct (Str.endswith _ _) eqn:E.
  - by apply endswith_md_iff.
  - exists m, "m"%char, "d"%char. auto.
Qed.

(** ** Running the monad *)

Lemma add_trace_nil (w : world) : add_trace w [] = w.
Proof. destruct w. unfold add_trace. simpl. by rewrite app_nil_r. Qed.

Lemma add_trace_app (w : world) (a b : list event) :
  add_trace (add_trace w a) b = add_trace w (a ++ b).
Proof. unfold add_trace. simpl. by rewrite app_assoc. Qed.

Lemma bind_run {A B} (m : M A) (f : A → M B) (w : world) :
  (m ≫= f) w =
  match m w with
  | (Done a, w') => f a w'
  | (Exit n, w') => (Exit n, w')
  | (Raise e, w') => (Raise e, w')
  end.
Proof. reflexivity. Qed.

Lemma exists_and_is_file_run (p : path) (w : world) :
  exists_and_is_file p w = (Done (regular w p), add_trace w (probes w p)).
Proof.
  unfold exists_and_is_file, probes. rewrite bind_run. unfold path_exists.
  fold (present w p). destruct (present w p) eqn:E.
  - unfold is_file, log, add_trace. simpl. fold (regular w p).
    by rewrite <- app_assoc.
  - unfold mret, M_ret, regular, log, add_trace. simpl.
    apply bool_decide_eq_false in E.
    destruct (stat w p) as [n|]; [|done]. destruct E. eauto.
Qed.

(** One round of the loop of [find_linked_files]. *)
Lemma linked_loop_step (base_dir : path) (m : string) (rest : list string)
    (linked_files : list path) (w : world) :
  linked_loop base_dir (m :: rest) linked_files w =
  linked_loop base_dir rest
    (linked_files ++ option_list (resolve w base_dir (with_md m)))
    (add_trace w (resolution_events w base_dir (with_md m)
                    (linked_warning (with_md m)))).
Proof.
  cbn [linked_loop]. rewrite bind_run, exists_and_is_file_run.
  unfold resolve, resolution_events.
  destruct (regular w (Path (with_md m))) eqn:E1.
  - by rewrite app_nil_r.
  - rewrite bind_run, exists_and_is_file_run.
    change (regular (add_trace w ?e) ?p) with (regular w p).
    change (probes (add_trace w ?e) ?p) with (probes w p).
    destruct (regular w (base_dir // with_md m)) eqn:E2.
    + by rewrite add_trace_app, app_nil_r.
    + rewrite bind_run. unfold print at 1. cbn [option_list].
      rewrite app_nil_r. unfold log. f_equal.
      unfold add_trace. simpl. by rewrite <- !app_assoc.
Qed.

(** The whole loop: it never fails, it keeps the references that resolve,
    in order, and leaves the file system as it was. *)
Lemma linked_loop_run (base_dir : path) (matches : list string)
    (linked_files : list path) (w : world) :
  linked_loop base_dir matches linked_files w =
  (Done (linked_files ++ omap (λ m, resolve w base_dir (with_md m)) matches),
   add_trace w (flat_map (λ m, resolution_events w base_dir (with_md m)
                                 (linked_warning (with_md m))) matches)).
Proof.
  revert linked_files w. induction matches as [|m rest IH]; intros acc w.
  - simpl. by rewrite app_nil_r, add_trace_nil.
  - rewrite linked_loop_step, IH, add_trace_app. simpl.
    rewrite <- app_assoc. repeat f_equal.
    by destruct (resolve w base_dir (with_md m)).
Qed.

(** One round of the loop of [find_asset_references]. *)
Lemma asset_loop_step (base_dir : path) (m : string) (rest : list string)
    (assets : list path) (w : world) :
  asset_loop base_dir (m :: rest) assets w =
  if is_url m then asset_loop base_dir rest assets w
  else asset_loop base_dir rest
         (assets ++ option_list (resolve w base_dir m))
         (add_trace w (resolution_events w base_dir m (asset_warning m))).
Proof.
  cbn [asset_loop]. destruct (is_url m); [done|].
  rewrite bind_run, exists_and_is_file_run.
  unfold resolve, resolution_events.
  destruct (regular w (Path m)) eqn:E1.
  - by rewrite app_nil_r.
  - rewrite bind_run, exists_and_is_file_run.
    change (regular (add_trace w ?e) ?p) with (regular w p).
    change (probes (add_trace w ?e) ?p) with (probes w p).
    destruct (regular w (base_dir // m)) eqn:E2.
    + by rewrite add_trace_app, app_nil_r.
    + rewrite bind_run. unfold print at 1. cbn [option_list].
      rewrite app_nil_r. unfold log. f_equal.
      unfold add_trace. simpl. by rewrite <- !app_assoc.
Qed.

Lemma asset_loop_run (base_dir : path) (all_matches : list string)
    (assets : list path) (w : world) :
  asset_loop base_dir all_matches assets w =
  (Done (assets ++ omap (resolve w base_dir) (local_refs all_matches)),
   add_trace w (flat_map (λ m, resolution_events w base_dir m (asset_warning m))
                  (local_refs all_matches))).
Proof.
  revert assets w. induction all_matches as [|m rest IH]; intros acc w.
  - simpl. by rewrite app_nil_r, add_trace_nil.
  - rewrite asset_loop_step. unfold local_refs. simpl.
    destruct (is_url m); simpl; [apply IH|].
    rewrite IH, add_trace_app. rewrite <- app_assoc. repeat f_equal.
    by destruct (resolve w base_dir m).
Qed.

(** ** URL references *)

Lemma startswith_app (p r : string) : Str.startswith p (p +:+ r) = true.
Proof.
  induction p as [|c p IH]; [done|].
  rewrite app_cons. simpl. by rewrite eqb_ascii_refl.
Qed.

Lemma startswith_inv (p s : string) :
  Str.startswith p s = true → ∃ r, s = p +:+ r.
Proof.
  revert s. induction p as [|c p IH]; intros s; [by exists s|].
  destruct s as [|x s]; simpl; [done|].
  destruct (Ascii.eqb c x) eqn:E; [|done].
  apply Ascii.eqb_eq in E as ->. intros [r ->]%IH. by exists r.
Qed.

Lemma is_url_iff (m : string) : is_url m = true ↔ remote m.
Proof.
  unfold is_url, remote. split.
  - intros H. apply orb_true_iff in H as [H|H];
      [apply orb_true_iff in H as [H|H]|];
      apply startswith_inv in H as [r ->]; exists r; auto.
  - intros [r [-> | [-> | ->]]]; rewrite startswith_app;
      by rewrite ?orb_true_r.
Qed.

(** ** A run of [main] that stops in [parse_arguments] *)

Lemma main_exit (target_file output_directory : string) (w w' : world) (n : nat) :
  parse_arguments target_file output_directory w = (Exit n, w') →
  main target_file output_directory w = (Exit n, w').
Proof. intros H. unfold main. by rewrite bind_run, H. Qed.

Lemma parse_arguments_missing (target_file output_directory : string) (w : world) :
  stat w (Path target_file) = None →
  parse_arguments target_file output_directory w =
  (Exit 1, add_trace w [Stat (Path target_file); Stderr (missing_message target_file)]).
Proof.
  intros H. unfold parse_arguments. rewrite bind_run. unfold path_exists.
  rewrite H. rewrite bool_decide_eq_false_2 by (by intros [? ?]).
  simpl. unfold sys_exit, log, add_trace. simpl. by rewrite <- app_assoc.
Qed.

Lemma parse_arguments_not_markdown (target_file output_directory : string)
    (w : world) :
  is_Some (stat w (Path target_file)) →
  Str.lower (suffix (Path target_file)) ≠ ".md" →
  parse_arguments target_file output_directory w =
  (Exit 1, add_trace w [Stat (Path target_file);
                        Stderr (not_markdown_message target_file)]).
Proof.
  intros H Hs. unfold parse_arguments. rewrite bind_run. unfold path_exists.
  rewrite bool_decide_eq_true_2 by done. simpl.
  destruct (String.eqb _ ".md") eqn:E.
  - by apply String.eqb_eq in E.
  - simpl. unfold sys_exit, log, add_trace. simpl. by rewrite <- app_assoc.
Qed.

(** ** Splitting a filename at its dots *)

Lemma split_nonempty (sep : ascii) (s : string) : Str.split sep s ≠ [].
Proof.
  destruct s as [|c s]; simpl; [done|].
  destruct (Ascii.eqb c sep); [done|]. by destruct (Str.split sep s).
Qed.

Lemma split_no_sep (sep : ascii) (s : string) :
  Str.mem sep s = false → Str.split sep s = [s].
Proof.
  induction s as [|c s IH]; simpl; [done|].
  destruct (Ascii.eqb c sep); [done|]. by intros ->%IH.
Qed.

Lemma split_at_first (sep : ascii) (stem rest : string) :
  Str.mem sep stem = false →
  Str.split sep (stem +:+ String sep rest) = stem :: Str.split sep rest.
Proof.
  induction stem as [|c stem IH].
  - intros _. rewrite app_empty_l. simpl. by rewrite eqb_ascii_refl.
  - rewrite app_cons. simpl. destruct (Ascii.eqb c sep); [done|].
    by intros ->%IH.
Qed.

Lemma join_split (sep : ascii) (s : string) :
  Str.join (String sep "") (Str.split sep s) = s.
Proof.
  induction s as [|c s IH]; simpl; [done|].
  destruct (Ascii.eqb c sep) eqn:E.
  - apply Ascii.eqb_eq in E as ->.
    pose proof (split_nonempty sep s).
    destruct (Str.split sep s) as [|p ps] eqn:Es; [done|].
    change (Str.join _ ("" :: p :: ps))
      with ("" +:+ String sep "" +:+ Str.join (String sep "") (p :: ps)).
    by rewrite IH.
  - pose proof (split_nonempty sep s).
    destruct (Str.split sep s) as [|p ps] eqn:Es; [done|].
    destruct ps as [|q ps]; simpl in *; [by rewrite IH|].
    rewrite app_cons. by rewrite IH.
Qed.

(** A name either has no '.', or is a dot-free stem, a '.', and the rest. *)
Lemma first_dot (s : string) :
  Str.mem "." s = false
  ∨ ∃ stem rest, s = stem +:+ String "." rest ∧ Str.mem "." stem = false.
Proof.
  induction s as [|c s IH]; simpl; [by left|].
  destruct (Ascii.eqb c ".") eqn:E.
  - apply Ascii.eqb_eq in E as ->. right. by exists "", s.
  - destruct IH as [H | (stem & rest & -> & H)]; [by left|].
    right. exists (String c stem), rest. simpl. by rewrite E.
Qed.

Lemma mem_app (c : ascii) (s t : string) :
  Str.mem c (s +:+ t) = Str.mem c s || Str.mem c t.
Proof.
  induction s as [|x s IH]; [done|].
  rewrite app_cons. simpl. by destruct (Ascii.eqb x c).
Qed.

(** ** The conflict rule of [copy_files_to_output] *)

Lemma output_filename_free (p : path) (used : gset string) :
  name p ∉ used → output_filename_of p used = name p.
Proof. intros H. unfold output_filename_of. by rewrite decide_False. Qed.

Lemma output_filename_with_dot (p : path) (used : gset string) (stem rest : string) :
  name p ∈ used → name p = stem +:+ String "." rest → Str.mem "." stem = false →
  output_filename_of p used = renamed_with_dot p stem rest.
Proof.
  intros H Hn Hs. unfold output_filename_of. rewrite decide_True by done.
  rewrite Hn, split_at_first by done.
  pose proof (split_nonempty "." rest).
  destruct (Str.split "." rest) as [|q qs] eqn:E; [done|].
  cbn [length hd tl]. rewrite <- E, join_split. done.
Qed.

Lemma output_filename_without_dot (p : path) (used : gset string) :
  name p ∈ used → Str.mem "." (name p) = false →
  output_filename_of p used = renamed_without_dot p.
Proof.
  intros H Hn. unfold output_filename_of. rewrite decide_True by done.
  by rewrite split_no_sep.
Qed.

Lemma used_after_cons (p : path) (rest : list path) (used : gset string) :
  used_after (p :: rest) used =
  used_after rest ({[output_filename_of p used]} ∪ used).
Proof. unfold used_after. simpl. set_solver. Qed.

Lemma plan_loop_app (l1 l2 : list path) (used : gset string) :
  plan_loop (l1 ++ l2) used = plan_loop l1 used ++ plan_loop l2 (used_after l1 used).
Proof.
  revert used. induction l1 as [|p l1 IH]; intros used.
  - simpl. f_equal. unfold used_after. simpl. set_solver.
  - simpl. by rewrite IH, used_after_cons.
Qed.

Lemma plan_loop_length (files : list path) (used : gset string) :
  length (plan_loop files used) = length files.
Proof. revert used. induction files; intros; simpl; auto. Qed.

Lemma used_after_incl (files : list path) (used : gset string) :
  used ⊆ used_after files used.
Proof. unfold used_after. set_solver. Qed.

Lemma cut_first_dot_none (s : string) :
  Str.mem "." s = false → cut_first_dot s = None.
Proof.
  induction s as [|c s IH]; simpl; [done|].
  destruct (Ascii.eqb c "."); [done|]. by intros ->%IH.
Qed.

Lemma cut_first_dot_some (stem rest : string) :
  Str.mem "." stem = false →
  cut_first_dot (stem +:+ String "." rest) = Some (stem, rest).
Proof.
  induction stem as [|c stem IH]; [done|].
  rewrite app_cons. simpl. destruct (Ascii.eqb c "."); [done|].
  by intros ->%IH.
Qed.

Lemma output_filename_taken (p : path) (used : gset string) :
  name p ∈ used → output_filename_of p used = renamed p.
Proof.
  intros H. unfold renamed.
  destruct (first_dot (name p)) as [Hn | (stem & rest & Hn & Hs)].
  - rewrite cut_first_dot_none by done. by apply output_filename_without_dot.
  - rewrite Hn at 1. rewrite cut_first_dot_some by done.
    by apply output_filename_with_dot.
Qed.

Lemma output_filename_cases (p : path) (used : gset string) :
  output_filename_of p used = if decide (name p ∈ used) then renamed p else name p.
Proof.
  case_decide; [by apply output_filename_taken | by apply output_filename_free].
Qed.

Lemma app_inv_tail (s t u : string) : s +:+ u = t +:+ u → s = t.
Proof.
  revert t. induction s as [|c s IH]; intros [|d t] H; [done|..].
  - apply (f_equal Str.length) in H. rewrite app_empty_l, app_cons in H.
    simpl in H. rewrite length_append in H. lia.
  - apply (f_equal Str.length) in H. rewrite app_empty_l, app_cons in H.
    simpl in H. rewrite length_append in H. lia.
  - rewrite !app_cons in H. injection H as -> H. f_equal. by apply IH.
Qed.

(** Files of one name in directories of different names are renamed apart. *)
Lemma renamed_apart (p q : path) :
  name p = name q → name (parent p) ≠ name (parent q) → renamed p ≠ renamed q.
Proof.
  intros Hn Hp. unfold renamed, renamed_with_dot, renamed_without_dot.
  rewrite <- Hn. destruct (cut_first_dot (name p)) as [[stem rest]|].
  - intros H%String.app_inj%String.app_inj. by apply app_inv_tail in H.
  - by intros H%String.app_inj%String.app_inj.
Qed.

Lemma name_used_after (p : path) (rest : list path) (used : gset string) :
  name p ∈ used_after (p :: rest) used.
Proof.
  rewrite used_after_cons. apply used_after_incl.
  rewrite output_filename_cases. case_decide; set_solver.
Qed.

(** The file after [before] in the plan: the choice is made against the
    names taken by then. *)
Lemma plan_loop_lookup (before after : list path) (p : path) (used : gset string) :
  plan_loop (before ++ p :: after) used !! length before =
  Some (p, output_filename_of p (used_after before used)).
Proof.
  rewrite plan_loop_app. rewrite lookup_app_r; rewrite plan_loop_length; [|done].
  by rewrite Nat.sub_diag.
Qed.

Lemma plan_loop_second (p q : path) (between after : list path) (used : gset string) :
  name p = name q →
  plan_loop (p :: between ++ q :: after) used !! S (length between) =
  Some (q, renamed q).
Proof.
  intros Hn.
  change (p :: between ++ q :: after) with ((p :: between) ++ q :: after).
  change (S (length between)) with (length (p :: between)).
  rewrite plan_loop_lookup, output_filename_taken; [done|].
  rewrite <- Hn. apply name_used_after.
Qed.



(** ** The copies of a run *)

Lemma copy2_done (src dst : path) (w w' : world) :
  copy2 src dst w = (Done (), w') →
  cwd w' = cwd w ∧ trace w' = trace w ++ [Copy src dst].
Proof.
  unfold copy2. destruct (samefile _ _ _); [done|].
  destruct (stat w src) as [[data|]|]; [|done..].
  destruct (write_file _ _ _); [|done]. by intros [= <-].
Qed.

Lemma copy_loop_done (what : string) (out : path) (files : list path)
    (used u : gset string) (w w' : world) :
  copy_loop what out files used w = (Done u, w') →
  u = used_after files used
  ∧ cwd w' = cwd w
  ∧ trace w' = trace w ++ copy_log what out (plan_loop files used).
Proof.
  revert used w. induction files as [|p rest IH]; intros used w.
  - intros [= <- <-]. unfold used_after. simpl. rewrite app_nil_r.
    split; [set_solver|done].
  - cbn [copy_loop]. rewrite bind_run.
    destruct (copy2 _ _ w) as [[[]|?|?] w1] eqn:E1; [|done..].
    apply copy2_done in E1 as [Hc1 Ht1]. rewrite bind_run. unfold print at 1.
    intros (-> & Hc & Ht)%IH. rewrite used_after_cons. split; [done|].
    split; [by rewrite Hc|].
    rewrite Ht. simpl. rewrite Ht1. by rewrite <- !app_assoc.
Qed.

(** A run of [copy_files_to_output] that returns made the copies of the
    plan, in the order of the plan. *)
Lemma copy_files_to_output_done (target_file output_dir : string)
    (linked_files assets : list path) (w w' : world) :
  copy_files_to_output target_file linked_files assets output_dir w = (Done (), w') →
  cwd w' = cwd w
  ∧ trace w' =
    trace w
    ++ [Copy (Path target_file) (Path output_dir // name (Path target_file));
        Print ("Copied target file: " +:+ name (Path target_file))]
    ++ copy_log "linked file" (Path output_dir)
         (plan_loop linked_files ({[name (Path target_file)]} ∪ ∅))
    ++ copy_log "asset" (Path output_dir)
         (plan_loop assets
            (used_after linked_files ({[name (Path target_file)]} ∪ ∅))).
Proof.
  unfold copy_files_to_output. rewrite bind_run.
  destruct (copy2 _ _ w) as [[[]|?|?] w1] eqn:E1; [|done..].
  apply copy2_done in E1 as [Hc1 Ht1]. rewrite bind_run. unfold print at 1.
  rewrite bind_run.
  destruct (copy_loop "linked file" _ _ _ _) as [[u2|?|?] w2] eqn:E2; [|done..].
  apply copy_loop_done in E2 as (-> & Hc2 & Ht2). rewrite bind_run.
  destruct (copy_loop "asset" _ _ _ _) as [[u3|?|?] w3] eqn:E3; [|done..].
  apply copy_loop_done in E3 as (-> & Hc3 & Ht3).
  intros [= <-]. split; [by rewrite Hc3, Hc2|].
  rewrite Ht3, Ht2. simpl. rewrite Ht1. by rewrite <- !app_assoc.
Qed.

Lemma copied_as_app (a b : list event) :
  copied_as (a ++ b) = copied_as a ++ copied_as b.
Proof. apply omap_app. Qed.

Lemma copied_as_copy_log (what : string) (out : path) (plan : list (path * string)) :
  copied_as (copy_log what out plan) = (λ e, (e.1, out // e.2)) <$> plan.
Proof.
  induction plan as [|e plan IH]; [done|].
  change (copy_log what out (e :: plan))
    with ([Copy e.1 (out // e.2); Print (copied_line what e.1 e.2)]
          ++ copy_log what out plan).
  rewrite copied_as_app, IH. done.
Qed.

Lemma copied_as_resolution (w : world) (b : path) (s warning : string) :
  copied_as (resolution_events w b s warning) = [].
Proof.
  unfold resolution_events, probes.
  by repeat (destruct (present _ _) || destruct (regular _ _)).
Qed.

Lemma copied_as_flat_map {A} (f : A → list event) (l : list A) :
  (∀ x, copied_as (f x) = []) → copied_as (flat_map f l) = [].
Proof.
  intros H. induction l as [|x l IH]; simpl; [done|].
  by rewrite copied_as_app, H, IH.
Qed.

(** The copies of a loop that runs to its end are those of its plan. *)
Lemma copy_loop_copies (what : string) (out : path) (files : list path)
    (used u : gset string) (w w' : world) :
  copy_loop what out files used w = (Done u, w') →
  copied_as (trace w') =
  copied_as (trace w) ++ ((λ e, (e.1, out // e.2)) <$> plan_loop files used).
Proof.
  intros (_ & _ & Ht)%copy_loop_done.
  by rewrite Ht, copied_as_app, copied_as_copy_log.
Qed.

(** ** A run of [main] that returns *)

Lemma parse_arguments_done (target_file output_directory : string) (w w' : world) :
  parse_arguments target_file output_directory w = (Done (), w') →
  present w (Path target_file) = true
  ∧ Str.lower (suffix (Path target_file)) = ".md"
  ∧ ∃ m, mkdirs (fs w) (start_of w (Path output_directory))
                (parts (Path output_directory)) = Some m
      ∧ w' = add_trace (with_fs m w)
               [Stat (Path target_file); Mkdir (Path output_directory)].
Proof.
  unfold parse_arguments. rewrite bind_run. unfold path_exists.
  fold (present w (Path target_file)).
  destruct (present w (Path target_file)); [|done]. simpl.
  destruct (String.eqb _ ".md") eqn:E; [|done]. simpl.
  apply String.eqb_eq in E. unfold mkdir_parents.
  change (start_of (log ?e w) ?p) with (start_of w p). simpl.
  destruct (mkdirs _ _ _) as [m|] eqn:Em; [|done].
  intros [= <-]. do 2 (split; [done|]). exists m. split; [done|].
  unfold log, with_fs, add_trace. simpl. by rewrite <- app_assoc.
Qed.

Lemma main_export (target_file output_directory : string) :
  main target_file output_directory =
  (parse_arguments target_file output_directory;;
   export target_file output_directory).
Proof. reflexivity. Qed.

(** The run after [parse_arguments] when the target is a readable file:
    the searches see the file system they start in and leave it as it is,
    then the copies are made. *)
Lemma export_run (target_file output_directory : string) (w : world)
    (data : string) :
  stat w (Path target_file) = Some (File data) → utf8_valid data = true →
  let content := universal_newlines data in
  let linked_files := linked_files_of w target_file content in
  let assets := assets_of w target_file content in
  export target_file output_directory w =
  match copy_files_to_output target_file linked_files assets output_directory
          (add_trace w (Print (exporting_line target_file output_directory)
                        :: search_events w target_file content)) with
  | (Done _, w') => (Done (), add_trace w' (summary linked_files assets))
  | (Exit n, w') => (Exit n, w')
  | (Raise e, w') => (Raise e, w')
  end.
Proof.
  intros Hs Hv content linked_files assets. unfold export.
  rewrite bind_run. unfold print at 1.
  rewrite bind_run. unfold find_linked_files.
  rewrite bind_run. unfold read_text at 1.
  change (stat (log ?e w) ?p) with (stat w p). rewrite Hs, Hv.
  rewrite linked_loop_run. rewrite bind_run. unfold find_asset_references.
  rewrite bind_run. unfold read_text.
  change (stat (add_trace (log ?e1 (log ?e2 w)) ?evs) ?p) with (stat w p).
  rewrite Hs, Hv. rewrite asset_loop_run. rewrite bind_run. simpl app.
  change (resolve (log ?e w) ?b ?s) with (resolve w b s).
  fold content. fold (linked_files_of w target_file content).
  fold (assets_of w target_file content). fold linked_files assets.
  match goal with
  | |- match copy_files_to_output _ _ _ _ ?w1 with _ => _ end =
       match copy_files_to_output _ _ _ _ ?w2 with _ => _ end =>
      replace w1 with w2
  end.
  - destruct (copy_files_to_output _ _ _ _ _) as [[[]|?|?] w3]; [|done..].
    unfold print. unfold mbind, M_bind, log, add_trace, summary.
    simpl. by rewrite <- !app_assoc.
  - unfold add_trace, log, search_events. simpl. f_equal.
    rewrite <- ?app_assoc. simpl. rewrite <- ?app_assoc. done.
Qed.

Lemma export_unreadable (target_file output_directory : string) (w : world) :
  (∀ data, stat w (Path target_file) = Some (File data) → utf8_valid data = false) →
  ∃ e evs, export target_file output_directory w = (Raise e, add_trace w evs).
Proof.
  intros H. unfold export. rewrite bind_run. unfold print at 1.
  rewrite bind_run. unfold find_linked_files. rewrite bind_run.
  unfold read_text at 1. change (stat (log ?e w) ?p) with (stat w p).
  destruct (stat w (Path target_file)) as [[data|]|] eqn:Hs.
  - rewrite (H data) by done. eexists _, [_; _].
    unfold log, add_trace. simpl. by rewrite <- app_assoc.
  - by eexists _, [_].
  - by eexists _, [_].
Qed.

(** ** Components and filenames *)

Lemma split_pieces (sep : ascii) (s : string) :
  Forall (λ piece, Str.mem sep piece = false) (Str.split sep s).
Proof.
  induction s as [|c s IH]; simpl; [by repeat constructor|].
  destruct (Ascii.eqb c sep) eqn:E; [by constructor|].
  destruct (Str.split sep s) as [|piece rest]; [by repeat constructor; simpl; rewrite E|].
  apply Forall_cons in IH as [H1 H2]. constructor; [|done]. simpl. by rewrite E.
Qed.

Lemma real_part_spec (x : string) : real_part x = true ↔ x ≠ "" ∧ x ≠ ".".
Proof.
  unfold real_part. rewrite andb_true_iff, !negb_true_iff.
  by rewrite !String.eqb_neq.
Qed.

Lemma wf_filter_split (s : string) :
  Forall good_part (List.filter real_part (Str.split "/" s)).
Proof.
  apply Forall_forall. intros x Hx. apply list_elem_of_In, filter_In in Hx as [Hx Hr].
  apply real_part_spec in Hr as [? ?]. repeat split; [done..|].
  pose proof (split_pieces "/" s) as Hall. rewrite Forall_forall in Hall.
  by apply Hall, list_elem_of_In.
Qed.

Lemma wf_Path (s : string) : wf_path (Path s).
Proof.
  unfold wf_path, Path. destruct (splitroot s) as [rt rel]. apply wf_filter_split.
Qed.

Lemma Forall_removelast {A} (P : A → Prop) (l : list A) :
  Forall P l → Forall P (removelast l).
Proof.
  induction 1 as [|x l Hx Hl IH]; simpl; [constructor|].
  destruct l; [constructor|]. by constructor.
Qed.

Lemma wf_parent (p : path) : wf_path p → wf_path (parent p).
Proof. apply Forall_removelast. Qed.

Lemma wf_joinpath (p : path) (s : string) : wf_path p → wf_path (p // s).
Proof.
  intros H. unfold joinpath. destruct (Str.startswith "/" s); [apply wf_Path|].
  apply Forall_app. split; [done | apply wf_Path].
Qed.

Lemma good_part_no_slash_start (n : string) :
  good_part n → Str.startswith "/" n = false.
Proof.
  intros (H1 & _ & H3). destruct n as [|c n]; [done|].
  cbn [Str.startswith]. cbn [Str.mem] in H3.
  destruct (Ascii.eqb_spec c "/") as [->|Hne]; [done|].
  by destruct (Ascii.eqb_spec "/" c) as [<-|?].
Qed.

Lemma Path_good (n : string) : good_part n → Path n = MkPath "" [n].
Proof.
  intros H. pose proof (good_part_no_slash_start n H) as Hs.
  destruct H as (H1 & H2 & H3). unfold Path.
  assert (splitroot n = ("", n)) as ->.
  { destruct n as [|c n]; [done|]. cbn [Str.startswith] in Hs.
    destruct (Ascii.eqb_spec "/" c) as [<-|Hne]; [done|].
    unfold splitroot. destruct c as [[] [] [] [] [] [] [] []]; done. }
  rewrite split_no_sep by done. simpl.
  assert (real_part n = true) as ->; [by apply real_part_spec|done].
Qed.

Lemma joinpath_good (p : path) (n : string) :
  good_part n → p // n = MkPath (root p) (parts p ++ [n]).
Proof.
  intros H. unfold joinpath. rewrite good_part_no_slash_start by done.
  by rewrite Path_good.
Qed.

Lemma name_snoc (rt : string) (ps : list string) (n : string) :
  name (MkPath rt (ps ++ [n])) = n.
Proof. unfold name. simpl. apply last_last. Qed.

Lemma parent_snoc (rt : string) (ps : list string) (n : string) :
  parent (MkPath rt (ps ++ [n])) = MkPath rt ps.
Proof. unfold parent. simpl. by rewrite removelast_last. Qed.

Lemma parts_snoc {A} (l : list A) (d : A) :
  l ≠ [] → l = removelast l ++ [List.last l d].
Proof. intros H. by apply app_removelast_last. Qed.

(** The name of a path with components is its last component, which is a
    good part. *)
Lemma name_good_part (p : path) : wf_path p → parts p ≠ [] → good_part (name p).
Proof.
  intros Hw Hp. unfold wf_path, name in *.
  rewrite (parts_snoc (parts p) "" Hp) in Hw.
  by apply Forall_app in Hw as [_ [H _]%Forall_cons].
Qed.

Lemma name_no_slash (p : path) : wf_path p → Str.mem "/" (name p) = false.
Proof.
  intros Hw. destruct (decide (parts p = [])) as [E|E].
  - unfold name. by rewrite E.
  - by apply name_good_part.
Qed.

Lemma cut_first_dot_inv (s stem rest : string) :
  cut_first_dot s = Some (stem, rest) → s = stem +:+ String "." rest.
Proof.
  revert stem. induction s as [|c s IH]; intros stem; simpl; [done|].
  destruct (Ascii.eqb c ".") eqn:E.
  - apply Ascii.eqb_eq in E as ->. by intros [= <- <-].
  - destruct (cut_first_dot s) as [[st rs]|]; [|done].
    intros [= <- <-]. rewrite app_cons. f_equal. by apply IH.
Qed.

Lemma mem_underscore_good (s : string) :
  Str.mem "_" s = true → Str.mem "/" s = false → good_name s.
Proof.
  intros Hu Hs. repeat split; [| |done|]; by intros ->.
Qed.

Lemma renamed_good (p : path) : wf_path p → good_name (renamed p).
Proof.
  intros Hw. pose proof (name_no_slash p Hw) as Hn.
  pose proof (name_no_slash _ (wf_parent p Hw)) as Hp.
  unfold renamed, renamed_with_dot, renamed_without_dot.
  destruct (cut_first_dot (name p)) as [[stem rest]|] eqn:E.
  - apply cut_first_dot_inv in E. rewrite E in Hn.
    rewrite mem_app in Hn. apply orb_false_iff in Hn as [H1 H2]. simpl in H2.
    apply mem_underscore_good; rewrite !mem_app; simpl.
    + by rewrite orb_true_r.
    + by rewrite H1, Hp, H2.
  - apply mem_underscore_good; rewrite !mem_app; simpl.
    + by rewrite orb_true_r.
    + by rewrite Hn, Hp.
Qed.

Lemma output_filename_good (p : path) (used : gset string) :
  wf_path p → good_name (name p) → good_name (output_filename_of p used).
Proof.
  intros Hw Hn. rewrite output_filename_cases. case_decide; [|done].
  by apply renamed_good.
Qed.

(** ** Well-formed file systems *)

Lemma below_snoc (d : loc) (c : string) : below d (d ++ [c]).
Proof. by exists c, []. Qed.

Lemma below_snoc2 (d : loc) (c c' : string) : below d (d ++ [c] ++ [c']).
Proof. by exists c, [c']. Qed.


Lemma walk_app (m : gmap loc node) (cur : loc) (a b : list string) :
  walk m cur (a ++ b) = walk m cur a ≫= λ d, walk m d b.
Proof.
  revert cur. induction a as [|c a IH]; intros cur; simpl.
  - destruct (m !! cur) as [n|] eqn:E; simpl; [done|].
    destruct b; simpl; by rewrite ?E.
  - destruct (m !! cur) as [[]|]; [done| |done]. apply IH.
Qed.

(** A walk only looks at directories on its way, and at whether its end
    exists. *)
Lemma walk_mono (m m' : gmap loc node) (cur : loc) (comps : list string) (l : loc) :
  (∀ x, m !! x = Some Dir → m' !! x = Some Dir) →
  (is_Some (m !! l) → is_Some (m' !! l)) →
  walk m cur comps = Some l → walk m' cur comps = Some l.
Proof.
  intros Hd Hl. revert cur. induction comps as [|c rest IH]; intros cur; simpl.
  - destruct (m !! cur) as [x|] eqn:E; [|done]. intros [= <-].
    destruct Hl as [y Hy]; [by rewrite E|]. by rewrite Hy.
  - destruct (m !! cur) as [[]|] eqn:E; [done| |done].
    rewrite (Hd _ E). apply IH.
Qed.

Lemma walk_weaken (m m' : gmap loc node) (cur : loc) (comps : list string) (l : loc) :
  m ⊆ m' → walk m cur comps = Some l → walk m' cur comps = Some l.
Proof.
  intros Hs. apply walk_mono.
  - intros x Hx. by eapply lookup_weaken.
  - intros [n Hn]. exists n. by eapply lookup_weaken.
Qed.

(** In a well-formed file system the last component of a path to a file is
    the file's name in the directory the rest of the path leads to. *)
Lemma walk_to_file (m : gmap loc node) (cur : loc) (init : list string)
    (c : string) (l : loc) (data : string) :
  wf_fs m → walk m cur (init ++ [c]) = Some l → m !! l = Some (File data) →
  c ≠ ".." ∧ ∃ d, walk m cur init = Some d ∧ m !! d = Some Dir ∧ l = d ++ [c].
Proof.
  intros Hwf Hw Hl. rewrite walk_app in Hw.
  destruct (walk m cur init) as [d|] eqn:Ed; [|done]. simpl in Hw.
  destruct (m !! d) as [[]|] eqn:Hd; [done| |done].
  destruct (m !! step_into d c) eqn:Hs; [|done]. injection Hw as <-.
  unfold step_into in *. destruct (String.eqb_spec c "..") as [->|Hc].
  - exfalso. destruct d as [|x d _] using rev_ind; simpl in *; [congruence|].
    rewrite removelast_last in Hl. apply Hwf in Hd. congruence.
  - split; [done|]. by exists d.
Qed.

(** A regular file has a name of its own. *)
Lemma regular_good_name (w : world) (p : path) :
  wf_world w → wf_path p → regular w p = true → good_name (name p).
Proof.
  intros (Hwf & Hroot & Hcwd) Hp Hr. unfold regular, stat, locate in Hr.
  destruct (walk (fs w) (start_of w p) (parts p)) as [l|] eqn:Hw; [|done].
  simpl in Hr. destruct (fs w !! l) as [[data|]|] eqn:Hl; [|done..].
  destruct (decide (parts p = [])) as [E|E].
  - rewrite E in Hw. simpl in Hw.
    assert (fs w !! start_of w p = Some Dir) as Hs.
    { unfold start_of. by destruct (String.eqb _ _). }
    rewrite Hs in Hw. injection Hw as <-. congruence.
  - split; [by apply name_good_part|].
    rewrite (parts_snoc (parts p) "" E) in Hw.
    by eapply walk_to_file in Hw as [? _].
Qed.

(** ** What a copy into a directory may change *)

Lemma grows_refl (d : loc) (m : gmap loc node) : grows d m m.
Proof. by split. Qed.

Lemma grows_trans (d : loc) (m1 m2 m3 : gmap loc node) :
  grows d m1 m2 → grows d m2 m3 → grows d m1 m3.
Proof.
  intros [H1 H2] [H3 H4]. split.
  - intros l Hl. by rewrite H3, H1.
  - intros l Hl. by apply H4, H2.
Qed.

Lemma grows_insert_file (d : loc) (m : gmap loc node) (l : loc) (data : string) :
  below d l → m !! l ≠ Some Dir → grows d m (<[l := File data]> m).
Proof.
  intros Hb Hn. split.
  - intros x Hx. rewrite lookup_insert_ne; [done|]. by intros <-.
  - intros x Hx. rewrite lookup_insert_ne; [done|]. by intros <-.
Qed.

Lemma wf_fs_insert_file (m : gmap loc node) (d : loc) (c data : string) :
  wf_fs m → m !! d = Some Dir → m !! (d ++ [c]) ≠ Some Dir →
  wf_fs (<[d ++ [c] := File data]> m).
Proof.
  intros Hwf Hd Hn l x n. rewrite lookup_insert.
  case_decide as E1.
  - apply app_inj_tail in E1 as [<- <-]. intros _.
    rewrite lookup_insert_ne; [done|]. intros E. apply (f_equal length) in E.
    rewrite length_app in E. simpl in E. lia.
  - intros H. pose proof (Hwf _ _ _ H) as Hl.
    rewrite lookup_insert_ne; [done|]. intros <-. congruence.
Qed.

Lemma wf_fs_insert_dir (m : gmap loc node) (d : loc) (c : string) :
  wf_fs m → m !! d = Some Dir → m !! (d ++ [c]) = None →
  wf_fs (<[d ++ [c] := Dir]> m).
Proof.
  intros Hwf Hd Hn l x n. rewrite lookup_insert.
  case_decide as E1.
  - apply app_inj_tail in E1 as [<- <-]. intros _.
    rewrite lookup_insert_ne; [done|]. intros E. apply (f_equal length) in E.
    rewrite length_app in E. simpl in E. lia.
  - intros H. pose proof (Hwf _ _ _ H) as Hl.
    rewrite lookup_insert. case_decide as E2; [done|done].
Qed.

(** [write_file] puts a file into the directory that the parent of the
    path leads to, and nothing else. *)
Lemma write_file_inv (w : world) (p : path) (data : string) (m : gmap loc node) :
  write_file w p data = Some m →
  ∃ d, locate w (parent p) = Some d ∧ fs w !! d = Some Dir
    ∧ fs w !! (d ++ [name p]) ≠ Some Dir
    ∧ m = <[d ++ [name p] := File data]> (fs w).
Proof.
  unfold write_file. destruct (parts p); [done|].
  destruct (String.eqb _ ".."); [done|].
  destruct (locate w (parent p)) as [d|]; [|done].
  destruct (fs w !! d) as [[]|] eqn:Hd; [done| |done].
  destruct (fs w !! (d ++ [name p])) as [[]|] eqn:Hn; [|done|];
    intros [= <-]; exists d; by rewrite Hd, Hn.
Qed.

Lemma locate_joinpath_good (w : world) (out : path) (n : string) :
  good_part n →
  locate w (out // n) = locate w out ≫= λ d, walk (fs w) d [n].
Proof.
  intros Hn. rewrite joinpath_good by done. unfold locate, start_of. simpl.
  apply walk_app.
Qed.

Lemma stat_dir_joinpath (w : world) (out : path) (n : string) (d : loc) :
  good_name n → locate w out = Some d →
  stat w (out // n) = Some Dir → locate w (out // n) = Some (d ++ [n]).
Proof.
  intros [Hn Hdd] Hd. unfold stat. rewrite locate_joinpath_good, Hd by done.
  simpl. destruct (fs w !! d) as [[]|]; [done| |done].
  unfold step_into. rewrite (proj2 (String.eqb_neq _ _) Hdd).
  by destruct (fs w !! (d ++ [n])).
Qed.

Lemma kept_refl (d : loc) (out : path) (w : world) :
  wf_world w → locate w out = Some d → fs w !! d = Some Dir → kept d out w w.
Proof. intros Hw Hl Hd. split; [done|]. split; [apply grows_refl|done]. Qed.

Lemma kept_trans (d : loc) (out : path) (w1 w2 w3 : world) :
  kept d out w1 w2 → kept d out w2 w3 → kept d out w1 w3.
Proof.
  intros (_ & Hg1 & Hc1 & _) (Hw & Hg2 & Hc2 & Hl & Hd).
  split; [done|]. split; [by eapply grows_trans|].
  split; [by rewrite Hc2|done].
Qed.

Lemma kept_add_trace (d : loc) (out : path) (w w' : world) (evs : list event) :
  kept d out w w' → kept d out w (add_trace w' evs).
Proof. done. Qed.

(** The file that [copy2] writes for a destination in the directory of
    [out] lies inside that directory. *)
Lemma real_dst_below (w : world) (src out : path) (n : string) (d d0 : loc) :
  good_name n → good_name (name src) → locate w out = Some d →
  let dst := out // n in
  let real_dst := match stat w dst with
                  | Some Dir => dst // name src
                  | _ => dst
                  end in
  locate w (parent real_dst) = Some d0 → below d (d0 ++ [name real_dst]).
Proof.
  intros Hn Hs Hd dst real_dst. unfold real_dst, dst.
  assert (out // n = MkPath (root out) (parts out ++ [n])) as Hj
    by (apply joinpath_good, Hn).
  destruct (stat w (out // n)) as [[data|]|] eqn:Hst.
  - rewrite Hj, parent_snoc, name_snoc. destruct out as [rt ps]. simpl.
    rewrite Hd. intros [= <-]. apply below_snoc.
  - pose proof (stat_dir_joinpath w out n d Hn Hd Hst) as Hl.
    rewrite (joinpath_good _ (name src)) by apply Hs.
    rewrite parent_snoc, name_snoc.
    replace (MkPath (root (out // n)) (parts (out // n))) with (out // n)
      by (by destruct (out // n)).
    rewrite Hl. intros [= <-]. rewrite <- app_assoc. apply below_snoc2.
  - rewrite Hj, parent_snoc, name_snoc. destruct out as [rt ps]. simpl.
    rewrite Hd. intros [= <-]. apply below_snoc.
Qed.

Lemma write_kept (d : loc) (out : path) (w : world) (d0 : loc) (c data : string)
    (e : event) :
  wf_world w → locate w out = Some d → fs w !! d = Some Dir →
  fs w !! d0 = Some Dir → fs w !! (d0 ++ [c]) ≠ Some Dir → below d (d0 ++ [c]) →
  kept d out w (log e (with_fs (<[d0 ++ [c] := File data]> (fs w)) w)).
Proof.
  intros (Hwf & Hroot & Hcwd) Hl Hd Hd0 Hn Hb.
  pose proof (grows_insert_file d (fs w) _ data Hb Hn) as Hg.
  repeat split; simpl; try apply Hg; try done.
  - by apply wf_fs_insert_file.
  - unfold locate, start_of in *. simpl.
    eapply walk_mono; [apply Hg| |done]. intros _. exists Dir. by apply Hg.
Qed.

Lemma copy2_kept (src out : path) (n : string) (w w' : world) (d : loc)
    (o : outcome unit) :
  wf_world w → wf_path src → (good_name (name src) → good_name n) →
  locate w out = Some d → fs w !! d = Some Dir →
  copy2 src (out // n) w = (o, w') → kept d out w w'.
Proof.
  intros Hw Hs Hn Hl Hd. unfold copy2.
  destruct (samefile _ _ _); [intros [= _ <-]; by apply kept_refl|].
  destruct (stat w src) as [[data|]|] eqn:Hst;
    [|intros [= _ <-]; by apply kept_refl..].
  assert (good_name (name src)) as Hgs.
  { apply (regular_good_name w); [done..|]. unfold regular. by rewrite Hst. }
  destruct (write_file _ _ _) as [m|] eqn:Hwr;
    [|intros [= _ <-]; by apply kept_refl].
  apply write_file_inv in Hwr as (d0 & Hp & Hd0 & Hnd & ->).
  intros [= _ <-]. apply write_kept; try done.
  by apply (real_dst_below w src out n d d0 (Hn Hgs) Hgs Hl).
Qed.

Lemma copy_loop_kept (what : string) (out : path) (files : list path)
    (used : gset string) (w w' : world) (d : loc) (o : outcome (gset string)) :
  wf_world w → Forall wf_path files →
  locate w out = Some d → fs w !! d = Some Dir →
  copy_loop what out files used w = (o, w') → kept d out w w'.
Proof.
  revert used w. induction files as [|p rest IH]; intros used w Hw Hf Hl Hd.
  - intros [= _ <-]. by apply kept_refl.
  - apply Forall_cons in Hf as [Hp Hf]. cbn [copy_loop]. rewrite bind_run.
    destruct (copy2 _ _ w) as [o1 w1] eqn:E1.
    apply (copy2_kept _ _ _ _ _ d) in E1 as Hk; try done;
      [|by apply output_filename_good].
    destruct o1 as [[]|?|?]; [|by intros [= _ <-]..].
    rewrite bind_run. unfold print at 1. intros E2.
    destruct Hk as (Hw1 & Hg1 & Hc1 & Hl1 & Hd1).
    apply IH in E2; try done.
    eapply kept_trans; [|exact E2]. done.
Qed.

Lemma copy_files_to_output_kept (target_file output_dir : string)
    (linked_files assets : list path) (w w' : world) (d : loc) (o : outcome unit) :
  wf_world w → Forall wf_path linked_files → Forall wf_path assets →
  locate w (Path output_dir) = Some d → fs w !! d = Some Dir →
  copy_files_to_output target_file linked_files assets output_dir w = (o, w') →
  kept d (Path output_dir) w w'.
Proof.
  intros Hw Hf1 Hf2 Hl Hd. unfold copy_files_to_output. rewrite bind_run.
  destruct (copy2 _ _ w) as [o1 w1] eqn:E1.
  apply (copy2_kept _ _ _ _ _ d) in E1 as Hk1; try done; [|apply wf_Path].
  destruct o1 as [[]|?|?]; [|by intros [= _ <-]..].
  rewrite bind_run. unfold print at 1. rewrite bind_run.
  destruct (copy_loop "linked file" _ _ _ _) as [o2 w2] eqn:E2.
  destruct Hk1 as (Hw1 & Hg1 & Hc1 & Hl1 & Hd1).
  apply (copy_loop_kept _ _ _ _ _ _ d) in E2 as Hk2; try done.
  assert (kept d (Path output_dir) w w2) as Hk12
    by (eapply kept_trans; [|exact Hk2]; done).
  destruct o2 as [u2|?|?]; [|by intros [= _ <-]..].
  rewrite bind_run.
  destruct (copy_loop "asset" _ _ _ _) as [o3 w3] eqn:E3.
  destruct Hk2 as (Hw2 & Hg2 & Hc2 & Hl2 & Hd2).
  apply (copy_loop_kept _ _ _ _ _ _ d) in E3 as Hk3; try done.
  assert (kept d (Path output_dir) w w3) as Hk13
    by (eapply kept_trans; [exact Hk12|exact Hk3]).
  destruct o3 as [u3|?|?]; by intros [= _ <-].
Qed.

Lemma resolve_wf (w : world) (base_dir p : path) (s : string) :
  wf_path base_dir → resolve w base_dir s = Some p → wf_path p.
Proof.
  intros Hb. unfold resolve.
  destruct (regular w (Path s)); [intros [= <-]; apply wf_Path|].
  destruct (regular w (base_dir // s)); [|done].
  intros [= <-]. by apply wf_joinpath.
Qed.

Lemma omap_resolve_wf (w : world) (base_dir : path) (f : string → string)
    (l : list string) :
  wf_path base_dir → Forall wf_path (omap (λ m, resolve w base_dir (f m)) l).
Proof.
  intros Hb. apply Forall_forall. intros p (m & _ & Hm)%list_elem_of_omap.
  by eapply resolve_wf.
Qed.

(** After [parse_arguments] the run changes nothing outside the output
    directory. *)
Lemma export_kept (target_file output_directory : string) (w w' : world)
    (d : loc) (o : outcome unit) :
  wf_world w → locate w (Path output_directory) = Some d → fs w !! d = Some Dir →
  export target_file output_directory w = (o, w') →
  kept d (Path output_directory) w w'.
Proof.
  intros Hw Hl Hd He.
  destruct (stat w (Path target_file)) as [[data|]|] eqn:Hs.
  1: destruct (utf8_valid data) eqn:Hv.
  1: { rewrite (export_run _ _ w data Hs Hv) in He.
       destruct (copy_files_to_output _ _ _ _ _) as [o1 w1] eqn:E1.
       apply (copy_files_to_output_kept _ _ _ _ _ _ d) in E1 as Hk; try done.
       - destruct o1 as [[]|?|?]; injection He as <- <-; done.
       - apply omap_resolve_wf, wf_parent, wf_Path.
       - apply (omap_resolve_wf _ _ id), wf_parent, wf_Path. }
  all: destruct (export_unreadable target_file output_directory w) as (e & evs & Hx);
    [intros data' Hd'; congruence|];
    rewrite Hx in He; injection He as <- <-; by apply kept_add_trace, kept_refl.
Qed.

(** ** Making the output directory *)

Lemma mkdirs_incl (m m' : gmap loc node) (cur : loc) (comps : list string) :
  mkdirs m cur comps = Some m' → m ⊆ m'.
Proof.
  revert m cur. induction comps as [|c rest IH]; intros m cur; simpl.
  - destruct (m !! cur) as [[]|]; [done| |done]. by intros [= <-].
  - destruct (m !! cur) as [[]|]; [done| |done].
    destruct (m !! step_into cur c) eqn:E; [apply IH|].
    destruct (String.eqb c ".."); [done|]. intros H%IH.
    etrans; [|exact H]. by apply insert_subseteq.
Qed.

(** Afterwards the path leads to a directory, at its place. *)
Lemma mkdirs_walk (m m' : gmap loc node) (cur : loc) (comps : list string) :
  mkdirs m cur comps = Some m' →
  walk m' cur comps = Some (foldl step_into cur comps)
  ∧ m' !! foldl step_into cur comps = Some Dir.
Proof.
  revert m cur. induction comps as [|c rest IH]; intros m cur; simpl.
  - destruct (m !! cur) as [[]|] eqn:E; [done| |done]. intros [= <-].
    by rewrite E.
  - destruct (m !! cur) as [[]|] eqn:E; [done| |done]. intros H.
    assert (m' !! cur = Some Dir) as ->.
    { destruct (m !! step_into cur c) eqn:E2.
      - apply mkdirs_incl in H. by eapply lookup_weaken.
      - destruct (String.eqb c ".."); [done|]. apply mkdirs_incl in H.
        eapply lookup_weaken; [|exact H]. rewrite lookup_insert_ne; [done|].
        intros E3. by rewrite E3, E in E2. }
    destruct (m !! step_into cur c); [by eapply IH|].
    destruct (String.eqb c ".."); [done|]. by eapply IH.
Qed.

Lemma mkdirs_wf (m m' : gmap loc node) (cur : loc) (comps : list string) :
  wf_fs m → mkdirs m cur comps = Some m' → wf_fs m'.
Proof.
  revert m cur. induction comps as [|c rest IH]; intros m cur Hwf; simpl.
  - destruct (m !! cur) as [[]|]; [done| |done]. by intros [= <-].
  - destruct (m !! cur) as [[]|] eqn:E; [done| |done].
    destruct (m !! step_into cur c) eqn:E2; [by apply IH|].
    unfold step_into in *. destruct (String.eqb c ".."); [done|].
    apply IH. by apply wf_fs_insert_dir.
Qed.

(** Making the directories again from any state between the one before
    and the one after gives the state after. *)
Lemma mkdirs_between (m m' mm : gmap loc node) (cur : loc) (comps : list string) :
  mkdirs m cur comps = Some mm → m ⊆ m' → m' ⊆ mm →
  mkdirs m' cur comps = Some mm.
Proof.
  revert m m' cur. induction comps as [|c rest IH]; intros m m' cur; simpl.
  - destruct (m !! cur) as [[]|] eqn:E; [done| |done]. intros [= <-] H1 H2.
    rewrite (lookup_weaken _ _ _ _ E H1). f_equal.
    apply (anti_symm (⊆)); done.
  - destruct (m !! cur) as [[]|] eqn:E; [done| |done]. intros H H1 H2.
    rewrite (lookup_weaken _ _ _ _ E H1).
    destruct (m !! step_into cur c) as [n|] eqn:E2.
    + rewrite (lookup_weaken _ _ _ _ E2 H1). by eapply IH.
    + destruct (String.eqb c "..") eqn:Ec; [done|].
      assert (mm !! step_into cur c = Some Dir) as Hmm.
      { apply mkdirs_incl in H. eapply lookup_weaken; [|exact H].
        by rewrite lookup_insert_eq. }
      destruct (m' !! step_into cur c) as [n|] eqn:E3.
      * rewrite (lookup_weaken _ _ _ _ E3 H2) in Hmm. injection Hmm as ->.
        eapply IH; [exact H| |done]. by apply insert_subseteq_l.
      * eapply IH; [exact H| |]; [by apply insert_mono|by apply insert_subseteq_l].
Qed.

(** ** Two runs *)

Lemma emptied_fresh (d : loc) (m : gmap loc node) :
  map_Forall (λ l _, ¬ below d l) m → emptied d m = m.
Proof.
  intros H. apply map_eq. intros l. unfold emptied.
  destruct (m !! l) as [n|] eqn:E.
  - apply map_lookup_filter_Some. split; [done|]. by eapply H.
  - apply map_lookup_filter_None. by left.
Qed.

Lemma emptied_grows (d : loc) (m m' : gmap loc node) :
  grows d m m' → emptied d m' = emptied d m.
Proof.
  intros [H _]. apply map_eq. intros l. unfold emptied.
  apply option_eq. intros n. rewrite !map_lookup_filter_Some. simpl.
  split; intros [H1 H2]; (split; [|done]); [rewrite <- H | rewrite H]; done.
Qed.

Lemma emptied_subseteq (d : loc) (m : gmap loc node) : emptied d m ⊆ m.
Proof. apply map_filter_subseteq. Qed.

Lemma emptied_mono (d : loc) (m m' : gmap loc node) :
  m ⊆ m' → emptied d m ⊆ emptied d m'.
Proof. apply map_filter_subseteq_mono. Qed.

Lemma stat_weaken (w : world) (m' : gmap loc node) (p : path) (n : node) :
  fs w ⊆ m' → stat w p = Some n → stat (with_fs m' w) p = Some n.
Proof.
  intros Hs. unfold stat, locate. change (start_of (with_fs m' w) p) with (start_of w p).
  destruct (walk (fs w) _ _) as [l|] eqn:E; [|done]. simpl.
  rewrite (walk_weaken _ _ _ _ _ Hs E). simpl. intros H.
  by eapply lookup_weaken.
Qed.

Lemma present_weaken (w : world) (m' : gmap loc node) (p : path) :
  fs w ⊆ m' → present w p = true → present (with_fs m' w) p = true.
Proof.
  intros Hs [n Hn]%bool_decide_eq_true. apply bool_decide_eq_true.
  exists n. by apply stat_weaken.
Qed.

(** A run that gets past [parse_arguments]. *)
Lemma parse_arguments_run (target_file output_directory : string) (w : world)
    (m : gmap loc node) :
  present w (Path target_file) = true →
  Str.lower (suffix (Path target_file)) = ".md" →
  mkdirs (fs w) (start_of w (Path output_directory))
    (parts (Path output_directory)) = Some m →
  parse_arguments target_file output_directory w =
  (Done (), add_trace (with_fs m w)
              [Stat (Path target_file); Mkdir (Path output_directory)]).
Proof.
  intros Hp Hs Hm. unfold parse_arguments. rewrite bind_run. unfold path_exists.
  fold (present w (Path target_file)). rewrite Hp. simpl.
  rewrite Hs. simpl. unfold mkdir_parents.
  change (start_of (log ?e w) ?p) with (start_of w p). simpl. rewrite Hm.
  unfold log, with_fs, add_trace. simpl. by rewrite <- app_assoc.
Qed.

(** When [parse_arguments] does not return, the file system is as it
    was. *)
Lemma parse_arguments_stop (target_file output_directory : string) (w w' : world)
    (o : outcome unit) :
  parse_arguments target_file output_directory w = (o, w') →
  (∀ u, o ≠ Done u) → fs w' = fs w ∧ cwd w' = cwd w.
Proof.
  unfold parse_arguments. rewrite bind_run. unfold path_exists.
  destruct (bool_decide _); simpl; [|by intros [= <- <-]].
  destruct (negb _); [by intros [= <- <-]|]. unfold mkdir_parents. simpl.
  destruct (mkdirs _ _ _); [|by intros [= <- <-]].
  intros [= <- <-] H. by destruct (H ()).
Qed.

(** ** The events of a run that returns *)

Lemma main_done (target_file output_directory : string) (w w' : world) :
  main target_file output_directory w = (Done (), w') →
  ∃ m data,
    let wm := with_fs m w in
    let content := universal_newlines data in
    let linked_files := linked_files_of wm target_file content in
    let assets := assets_of wm target_file content in
    mkdirs (fs w) (start_of w (Path output_directory))
      (parts (Path output_directory)) = Some m
    ∧ stat wm (Path target_file) = Some (File data)
    ∧ trace w' =
      trace w
      ++ [Stat (Path target_file); Mkdir (Path output_directory);
          Print (exporting_line target_file output_directory)]
      ++ search_events wm target_file content
      ++ [Copy (Path target_file) (Path output_directory // name (Path target_file));
          Print ("Copied target file: " +:+ name (Path target_file))]
      ++ copy_log "linked file" (Path output_directory)
           (plan_loop linked_files ({[name (Path target_file)]} ∪ ∅))
      ++ copy_log "asset" (Path output_directory)
           (plan_loop assets
              (used_after linked_files ({[name (Path target_file)]} ∪ ∅)))
      ++ summary linked_files assets.
Proof.
  rewrite main_export, bind_run.
  destruct (parse_arguments _ _ w) as [[[]|?|?] wp] eqn:Ep; [|done..].
  apply parse_arguments_done in Ep as (Hp & Hs & m & Hmk & ->).
  intros He. exists m.
  destruct (stat (with_fs m w) (Path target_file)) as [[data|]|] eqn:Hst.
  1: destruct (utf8_valid data) eqn:Hv.
  1: { exists data. split; [done|]. split; [done|].
       rewrite (export_run _ _ (add_trace (with_fs m w) _) data Hst Hv) in He.
       destruct (copy_files_to_output _ _ _ _ _) as [[[]|?|?] w3] eqn:Ec; [|done..].
       apply copy_files_to_output_done in Ec as [_ Ht].
       injection He as <-. simpl. rewrite Ht. simpl.
       change (linked_files_of (add_trace ?a ?b)) with (linked_files_of a).
       change (assets_of (add_trace ?a ?b)) with (assets_of a).
       change (search_events (add_trace ?a ?b)) with (search_events a).
       unfold search_events. rewrite <- !app_assoc. simpl.
       rewrite <- !app_assoc. reflexivity. }
  all: destruct (export_unreadable target_file output_directory
                  (add_trace (with_fs m w)
                     [Stat (Path target_file); Mkdir (Path output_directory)]))
         as (e & evs & Hx);
    [intros data' Hd'; change (stat (add_trace ?a ?b) ?p) with (stat a p) in Hd';
     congruence|];
    by rewrite Hx in He.
Qed.

Lemma last_app_cons {A} (l l' : list A) (x d : A) :
  List.last (l ++ x :: l') d = List.last (x :: l') d.
Proof.
  induction l as [|y l IH]; [done|]. rewrite <- IH. simpl.
  by destruct (l ++ x :: l') eqn:E; [destruct l|].
Qed.

Lemma copied_as_summary (l a : list path) : copied_as (summary l a) = [].
Proof. done. Qed.

Lemma copy_plan_length (t : path) (l a : list path) :
  length (copy_plan t l a) = 1 + length l + length a.
Proof. unfold copy_plan. simpl. by rewrite plan_loop_length, length_app. Qed.

(** The copies of a run that returns are those of the plan for the linked
    files and assets found, and its last line counts them. *)
Lemma main_copies (target_file output_directory : string) (w w' : world) :
  main target_file output_directory w = (Done (), w') →
  ∃ linked_files assets,
    copied_as (trace w') =
    copied_as (trace w)
    ++ ((λ e, (e.1, Path output_directory // e.2))
          <$> copy_plan (Path target_file) linked_files assets)
    ∧ List.last (trace w') (Print "") =
      Print ("- Total files copied: "
             +:+ pretty (length (copy_plan (Path target_file) linked_files assets))).
Proof.
  intros (m & data & Hmk & Hst & Ht)%main_done.
  eexists _, _. rewrite Ht. split.
  - rewrite !copied_as_app, !copied_as_copy_log, copied_as_summary.
    unfold search_events. rewrite !copied_as_app.
    rewrite !copied_as_flat_map by (intros; apply copied_as_resolution).
    unfold copy_plan. rewrite plan_loop_app. simpl.
    by rewrite app_nil_r, fmap_app.
  - rewrite copy_plan_length. rewrite !app_assoc. unfold summary.
    by rewrite last_app_cons.
Qed.

(** A copy onto a file that an earlier copy wrote: the loop goes on, the
    file now has the content of the later source. *)
Lemma copy_loop_overwrite (what : string) (out p : path) (rest : list path)
    (used : gset string) (w : world) (d : loc) (data old : string) :
  let n := output_filename_of p used in
  wf_world w → wf_path p → locate w out = Some d → fs w !! d = Some Dir →
  stat w p = Some (File data) → fs w !! (d ++ [n]) = Some (File old) →
  locate w p ≠ Some (d ++ [n]) →
  copy_loop what out (p :: rest) used w =
  copy_loop what out rest ({[n]} ∪ used)
    (add_trace (with_fs (<[d ++ [n] := File data]> (fs w)) w)
       [Copy p (out // n); Print (copied_line what p n)]).
Proof.
  intros n Hw Hp Hl Hd Hs Ho Hne.
  assert (good_name n) as [Hgn Hdd].
  { apply output_filename_good; [done|]. apply (regular_good_name w); [done..|].
    unfold regular. by rewrite Hs. }
  assert (locate w (out // n) = Some (d ++ [n])) as Hln.
  { rewrite locate_joinpath_good, Hl by done. simpl. rewrite Hd.
    unfold step_into. rewrite (proj2 (String.eqb_neq _ _) Hdd). by rewrite Ho. }
  cbn [copy_loop]. fold n. rewrite bind_run. unfold copy2.
  assert (stat w (out // n) = Some (File old)) as ->.
  { unfold stat. rewrite Hln. done. }
  unfold samefile. rewrite Hln.
  assert (is_Some (locate w p)) as [lp Hlp].
  { unfold stat in Hs. destruct (locate w p); [by eexists|done]. }
  rewrite Hlp, bool_decide_eq_false_2 by congruence. rewrite Hs.
  assert (write_file w (out // n) data = Some (<[d ++ [n] := File data]> (fs w)))
    as ->.
  { unfold write_file. rewrite joinpath_good by done. rewrite parent_snoc, name_snoc.
    simpl. destruct (parts out ++ [n]) eqn:E; [by destruct (parts out)|].
    rewrite (proj2 (String.eqb_neq _ _) Hdd).
    replace (MkPath (root out) (parts out)) with out by (by destruct out).
    by rewrite Hl, Hd, Ho. }
  rewrite bind_run. unfold print at 1. f_equal.
  unfold log, with_fs, add_trace. simpl. by rewrite <- app_assoc.
Qed.

(** ** Matching *)

Lemma match_link_pattern (prev : option ascii) (s : string) :
  match_here link_pattern prev s =
  rmatch (Lit "[") (rmatch (Lit "[") (rmatch (Group LazyAny) k_opt)) prev s "".
Proof. reflexivity. Qed.

Lemma match_image_pattern (prev : option ascii) (s : string) :
  match_here image_pattern prev s =
  rmatch (Lit "!") (rmatch (Lit "[") (lazy_any k_close)) prev s "".
Proof. reflexivity. Qed.

Lemma match_asset_pattern (prev : option ascii) (s : string) :
  match_here asset_pattern prev s =
  rmatch (NotBehind "!") (rmatch (Lit "[") (lazy_any k_close)) prev s "".
Proof. reflexivity. Qed.

Lemma rmatch_lit_eq (c : ascii) (k : cont) (p : option ascii) (s g : string) :
  rmatch (Lit c) k p (String c s) g = k (Some c) s g.
Proof. simpl. by rewrite eqb_ascii_refl. Qed.

Lemma rmatch_lit_ne (c x : ascii) (k : cont) (p : option ascii) (s g : string) :
  x ≠ c → rmatch (Lit c) k p (String x s) g = None.
Proof. intros H. simpl. by destruct (Ascii.eqb_spec x c). Qed.

Lemma mem_ne (c d : ascii) (a : string) :
  Str.mem c a = true → Str.mem d a = false → c ≠ d.
Proof. intros H1 H2 ->. congruence. Qed.

Lemma mem_head (c : ascii) (a : string) : Str.mem c (String c a) = true.
Proof. simpl. by rewrite eqb_ascii_refl. Qed.

Lemma mem_tail (c x : ascii) (a : string) :
  Str.mem c a = true → Str.mem c (String x a) = true.
Proof. intros H. simpl. by destruct (Ascii.eqb x c). Qed.

Lemma mem_cons_false (c x : ascii) (a : string) :
  Str.mem c (String x a) = false → x ≠ c ∧ Str.mem c a = false.
Proof. simpl. by destruct (Ascii.eqb_spec x c). Qed.

(** A lazy part runs over a stretch of one line on which what follows
    cannot match. *)
Lemma lazy_any_skip (k : cont) (a s : string) (p : option ascii) (g : string) :
  Str.mem Str.newline a = false →
  (∀ c p' s' g', Str.mem c a = true → k p' (String c s') g' = None) →
  lazy_any k p (a +:+ s) g = lazy_any k (Str.last a p) s g.
Proof.
  revert p. induction a as [|x a IH]; intros p Hn Hk; [done|].
  apply mem_cons_false in Hn as [Hx Hn]. rewrite app_cons.
  cbn [lazy_any Str.last]. rewrite Hk by apply mem_head.
  destruct (Ascii.eqb_spec x Str.newline) as [?|_]; [done|].
  apply IH; [done|]. intros c p' s' g' Hc. by apply Hk, mem_tail.
Qed.

Lemma lazy_any_here (k : cont) (s g : string) (p : option ascii)
    (res : string * string) :
  k p s g = Some res → lazy_any k p s g = Some res.
Proof. intros H. destruct s; simpl; by rewrite H. Qed.

Lemma lazy_any_step (k : cont) (x : ascii) (s g : string) (p : option ascii) :
  k p (String x s) g = None → x ≠ Str.newline →
  lazy_any k p (String x s) g = lazy_any k (Some x) s g.
Proof.
  intros H Hx. cbn [lazy_any]. rewrite H.
  by destruct (Ascii.eqb_spec x Str.newline).
Qed.

Lemma take_append_length (a s : string) : Str.take (Str.length a) (a +:+ s) = a.
Proof.
  induction a as [|x a IH]; [by destruct s|].
  rewrite app_cons. simpl. by rewrite IH.
Qed.

Lemma consumed_app (a s : string) : consumed (a +:+ s) s = a.
Proof.
  unfold consumed. rewrite length_append.
  replace (Str.length a + Str.length s - Str.length s) with (Str.length a) by lia.
  apply take_append_length.
Qed.

(** ** The three patterns on a well-formed link *)

Lemma clean_spec (s : string) :
  clean s = true →
  Str.mem "[" s = false ∧ Str.mem "]" s = false ∧ Str.mem "(" s = false
  ∧ Str.mem ")" s = false ∧ Str.mem "!" s = false ∧ Str.mem "|" s = false
  ∧ Str.mem Str.newline s = false.
Proof.
  unfold clean. rewrite !andb_true_iff, !negb_true_iff. tauto.
Qed.

Lemma prose_spec (s : string) :
  prose s = true →
  Str.mem "[" s = false ∧ Str.mem "]" s = false ∧ Str.mem "(" s = false
  ∧ Str.mem ")" s = false ∧ Str.mem "!" s = false.
Proof.
  unfold prose. rewrite !andb_true_iff, !negb_true_iff. tauto.
Qed.

Lemma k_close_ne (c : ascii) (p : option ascii) (s g : string) :
  c ≠ "]"%char → k_close p (String c s) g = None.
Proof. apply rmatch_lit_ne. Qed.

Lemma k_close_no_paren (c : ascii) (p : option ascii) (s g : string) :
  c ≠ "("%char → k_close p (String "]" (String c s)) g = None.
Proof. intros H. unfold k_close. rewrite rmatch_lit_eq. by apply rmatch_lit_ne. Qed.

(** The url of a link, up to its closing parenthesis. *)
Lemma k_close_url (u rest : string) (p : option ascii) (g : string) :
  clean u = true →
  k_close p ("](" +:+ u +:+ String ")" rest) g = Some (u, rest).
Proof.
  intros (_ & _ & _ & Hp & _ & _ & Hn)%clean_spec. unfold k_close.
  change ("](" +:+ ?x) with (String "]" (String "(" x)).
  rewrite !rmatch_lit_eq. cbn [rmatch].
  rewrite lazy_any_skip; [|done|].
  - apply lazy_any_here. unfold k_paren. rewrite rmatch_lit_eq. unfold final.
    by rewrite consumed_app.
  - intros c p' s' g' Hc. apply rmatch_lit_ne. by eapply mem_ne.
Qed.

Lemma k_opt_ne (c : ascii) (p : option ascii) (s g : string) :
  c ≠ "|"%char → c ≠ "]"%char → k_opt p (String c s) g = None.
Proof.
  intros H1 H2. unfold k_opt. cbn [rmatch].
  destruct (Ascii.eqb_spec c "|") as [?|_]; [done|].
  unfold k_end. by rewrite rmatch_lit_ne.
Qed.

Lemma k_end_ne (c : ascii) (p : option ascii) (s g : string) :
  c ≠ "]"%char → k_end p (String c s) g = None.
Proof. apply rmatch_lit_ne. Qed.

(** A wiki-link, with or without a display text. *)
Lemma wiki_match (t rest : string) (p : option ascii) :
  clean t = true →
  match_here link_pattern p ("[[" +:+ t +:+ "]]" +:+ rest) = Some (t, rest).
Proof.
  intros (_ & Hb & _ & _ & _ & Hbar & Hn)%clean_spec.
  rewrite match_link_pattern.
  change ("[[" +:+ ?x) with (String "[" (String "[" x)).
  rewrite !rmatch_lit_eq. cbn [rmatch].
  rewrite lazy_any_skip; [|done|].
  - apply lazy_any_here. unfold k_opt. cbn [rmatch].
    change ("]]" +:+ rest) with (String "]" (String "]" rest)).
    destruct (Ascii.eqb_spec "]" "|") as [?|_]; [done|].
    unfold k_end. rewrite !rmatch_lit_eq. unfold final.
    by rewrite (consumed_app t (String "]" (String "]" rest))).
  - intros c p' s' g' Hc. apply k_opt_ne; by eapply mem_ne.
Qed.

Lemma wiki_display_match (t d rest : string) (p : option ascii) :
  clean t = true → clean d = true →
  match_here link_pattern p ("[[" +:+ t +:+ "|" +:+ d +:+ "]]" +:+ rest) = Some (t, rest).
Proof.
  intros (_ & Hb & _ & _ & _ & Hbar & Hn)%clean_spec
         (_ & Hdb & _ & _ & _ & _ & Hdn)%clean_spec.
  rewrite match_link_pattern.
  change ("[[" +:+ ?x) with (String "[" (String "[" x)).
  rewrite !rmatch_lit_eq. cbn [rmatch].
  rewrite lazy_any_skip; [|done|].
  - apply lazy_any_here. change ("|" +:+ ?x) with (String "|" x).
    unfold k_opt. cbn [rmatch]. rewrite eqb_ascii_refl.
    rewrite lazy_any_skip; [|done|].
    + rewrite (lazy_any_here _ _ _ _ (t, rest)); [done|].
      change ("]]" +:+ rest) with (String "]" (String "]" rest)).
      unfold k_end. rewrite !rmatch_lit_eq. unfold final.
      by rewrite (consumed_app t (String "|" (d +:+ String "]" (String "]" rest)))).
    + intros c p' s' g' Hc. apply k_end_ne. by eapply mem_ne.
  - intros c p' s' g' Hc. apply k_opt_ne; by eapply mem_ne.
Qed.

(** An image, and a link that no '!' precedes. *)
Lemma image_match (a u rest : string) (p : option ascii) :
  clean a = true → clean u = true →
  match_here image_pattern p ("![" +:+ a +:+ "](" +:+ u +:+ String ")" rest)
  = Some (u, rest).
Proof.
  intros (_ & Hb & _ & _ & _ & _ & Hn)%clean_spec Hu.
  rewrite match_image_pattern.
  change ("![" +:+ ?x) with (String "!" (String "[" x)).
  rewrite !rmatch_lit_eq.
  rewrite lazy_any_skip; [|done|].
  - apply lazy_any_here. by apply k_close_url.
  - intros c p' s' g' Hc. apply k_close_ne. by eapply mem_ne.
Qed.

Lemma asset_match (t u rest : string) (p : option ascii) :
  p ≠ Some "!"%char → clean t = true → clean u = true →
  match_here asset_pattern p ("[" +:+ t +:+ "](" +:+ u +:+ String ")" rest)
  = Some (u, rest).
Proof.
  intros Hp (_ & Hb & _ & _ & _ & _ & Hn)%clean_spec Hu.
  rewrite match_asset_pattern. cbn [rmatch].
  assert (rmatch (Lit "[") (lazy_any k_close) p
            ("[" +:+ t +:+ "](" +:+ u +:+ String ")" rest) ""
          = Some (u, rest)) as Hm.
  { change ("[" +:+ ?x) with (String "[" x). rewrite rmatch_lit_eq.
    rewrite lazy_any_skip; [|done|].
    - apply lazy_any_here. by apply k_close_url.
    - intros c p' s' g' Hc. apply k_close_ne. by eapply mem_ne. }
  destruct p as [x|]; [|exact Hm].
  destruct (Ascii.eqb_spec x "!") as [->|_]; [done|exact Hm].
Qed.

(** ** Scanning *)

Lemma findall_skip_over (r : regex) (a s : string) (prev : option ascii) :
  findall_from r (Str.length a) prev (a +:+ s) = findall_from r 0 (Str.last a prev) s.
Proof.
  revert prev. induction a as [|x a IH]; intros prev; [done|].
  rewrite app_cons. cbn [Str.length Str.last findall_from]. apply IH.
Qed.

(** A match at the position: its group, and the scan goes on after it. *)
Lemma findall_match (r : regex) (m rest g : string) (prev : option ascii) :
  m ≠ "" → match_here r prev (m +:+ rest) = Some (g, rest) →
  findall_from r 0 prev (m +:+ rest) = g :: findall_from r 0 (Str.last m prev) rest.
Proof.
  intros Hm H. destruct m as [|c m]; [done|]. rewrite app_cons in *.
  cbn [findall_from]. rewrite H. cbn [Str.length Str.last].
  rewrite length_append.
  replace (Nat.pred (S (Str.length m + Str.length rest) - Str.length rest))
    with (Str.length m) by lia.
  by rewrite findall_skip_over.
Qed.

(** No match at the position: the scan moves on by one character. *)
Lemma findall_step (r : regex) (c : ascii) (s : string) (prev : option ascii) :
  match_here r prev (String c s) = None →
  findall_from r 0 prev (String c s) = findall_from r 0 (Some c) s.
Proof. intros H. cbn [findall_from]. by rewrite H. Qed.

Lemma findall_end (r : regex) (prev : option ascii) :
  match_here r prev "" = None → findall_from r 0 prev "" = [].
Proof. intros H. cbn [findall_from]. by rewrite H. Qed.

(** A stretch without the character that every match starts with. *)
Lemma findall_skip_chars (r : regex) (c0 : ascii) (a s : string) (prev : option ascii) :
  (∀ p c s', c ≠ c0 → match_here r p (String c s') = None) →
  Str.mem c0 a = false →
  findall_from r 0 prev (a +:+ s) = findall_from r 0 (Str.last a prev) s.
Proof.
  intros Hr. revert prev. induction a as [|x a IH]; intros prev Ha; [done|].
  apply mem_cons_false in Ha as [Hx Ha]. rewrite app_cons.
  rewrite findall_step by (by apply Hr). by apply IH.
Qed.

Lemma link_no_start (p : option ascii) (c : ascii) (s : string) :
  c ≠ "["%char → match_here link_pattern p (String c s) = None.
Proof. intros H. rewrite match_link_pattern. by apply rmatch_lit_ne. Qed.

Lemma link_single (p : option ascii) (c : ascii) (s : string) :
  c ≠ "["%char → match_here link_pattern p (String "[" (String c s)) = None.
Proof.
  intros H. rewrite match_link_pattern, rmatch_lit_eq. by apply rmatch_lit_ne.
Qed.

Lemma image_no_start (p : option ascii) (c : ascii) (s : string) :
  c ≠ "!"%char → match_here image_pattern p (String c s) = None.
Proof. intros H. rewrite match_image_pattern. by apply rmatch_lit_ne. Qed.

Lemma asset_no_start (p : option ascii) (c : ascii) (s : string) :
  c ≠ "["%char → match_here asset_pattern p (String c s) = None.
Proof.
  intros H. rewrite match_asset_pattern. cbn [rmatch].
  destruct (Ascii.eqb_spec c "[") as [?|_]; [done|].
  destruct p as [x|]; [|done]. by destruct (Ascii.eqb x "!").
Qed.

Lemma asset_after_bang (s : string) :
  match_here asset_pattern (Some "!"%char) s = None.
Proof. done. Qed.

(** ** Documents of well-formed links *)

Lemma body_app (t u rest : string) :
  body t u +:+ rest = t +:+ "](" +:+ u +:+ String ")" rest.
Proof. unfold body. by rewrite !app_assoc'. Qed.

Lemma mem_body (c : ascii) (t u : string) :
  Str.mem c t = false → Str.mem c u = false →
  c ≠ "]"%char → c ≠ "("%char → c ≠ ")"%char → Str.mem c (body t u) = false.
Proof.
  intros Ht Hu H1 H2 H3. unfold body. rewrite !mem_app, Ht, Hu.
  cbn [Str.mem orb].
  destruct (Ascii.eqb_spec "]" c) as [?|_]; [done|].
  destruct (Ascii.eqb_spec "(" c) as [?|_]; [done|].
  by destruct (Ascii.eqb_spec ")" c) as [?|_].
Qed.

(** What follows the bracket of a link does not begin with a bracket. *)
Lemma body_head (t u rest : string) :
  Str.mem "[" t = false →
  ∃ c s, body t u +:+ rest = String c s ∧ c ≠ "["%char.
Proof.
  intros Ht. rewrite body_app. destruct t as [|x t].
  - by exists "]"%char, (String "(" (u +:+ String ")" rest)).
  - apply mem_cons_false in Ht as [Hx _]. rewrite app_cons. by eexists _, _.
Qed.

Lemma wf_doc_cons (i : item) (doc : list item) :
  wf_doc (i :: doc) = true → wf_item i = true ∧ wf_doc doc = true.
Proof. unfold wf_doc. simpl. by rewrite andb_true_iff. Qed.

Lemma mem_wiki (c : ascii) (t : string) (d : option string) :
  wf_item (Wiki t d) = true → c ≠ "["%char → c ≠ "]"%char → c ≠ "|"%char →
  Str.mem c t = false → (∀ x, d = Some x → Str.mem c x = false) →
  Str.mem c (render_item (Wiki t d)) = false.
Proof.
  intros _ H1 H2 H3 Ht Hd.
  destruct d as [d|]; cbn [render_item]; rewrite !mem_app, Ht; cbn [Str.mem orb].
  - rewrite (Hd d) by done. cbn [orb].
    destruct (Ascii.eqb_spec "[" c) as [?|_]; [done|].
    destruct (Ascii.eqb_spec "|" c) as [?|_]; [done|].
    by destruct (Ascii.eqb_spec "]" c) as [?|_].
  - destruct (Ascii.eqb_spec "[" c) as [?|_]; [done|].
    by destruct (Ascii.eqb_spec "]" c) as [?|_].
Qed.

(** The wiki-link pattern finds the targets of the wiki-links, in order. *)
Lemma findall_wiki (doc : list item) (prev : option ascii) :
  wf_doc doc = true →
  findall_from link_pattern 0 prev (render doc) = wiki_targets doc.
Proof.
  revert prev. induction doc as [|i doc IH]; intros prev Hwf; [done|].
  apply wf_doc_cons in Hwf as [Hi Hwf]. cbn [render].
  destruct i as [s|t [d|]|a u|t u]; simpl in Hi.
  - apply prose_spec in Hi as (Hb & _). cbn [render_item].
    rewrite (findall_skip_chars _ "["); [by apply IH|apply link_no_start|done].
  - apply andb_true_iff in Hi as [Ht Hd]. cbn [render_item].
    rewrite (findall_match _ _ _ t).
    + rewrite IH by done. done.
    + by rewrite app_cons.
    + rewrite !app_assoc'. by apply wiki_display_match.
  - cbn [render_item]. rewrite (findall_match _ _ _ t).
    + rewrite IH by done. done.
    + by rewrite app_cons.
    + rewrite !app_assoc'. by apply wiki_match.
  - apply andb_true_iff in Hi as [(Ha & Ha2 & Ha3 & Ha4 & _)%clean_spec
                                   (Hu & Hu2 & Hu3 & Hu4 & _)%clean_spec].
    cbn [render_item]. rewrite !app_cons.
    rewrite findall_step by (by apply link_no_start).
    destruct (body_head a u (render doc) Ha) as (c & s & Hs & Hc).
    rewrite Hs, findall_step by (by apply link_single). rewrite <- Hs.
    rewrite (findall_skip_chars _ "["); [by apply IH|apply link_no_start|].
    by apply mem_body.
  - apply andb_true_iff in Hi as [(Ha & Ha2 & Ha3 & Ha4 & _)%clean_spec
                                   (Hu & Hu2 & Hu3 & Hu4 & _)%clean_spec].
    cbn [render_item]. rewrite !app_cons.
    destruct (body_head t u (render doc) Ha) as (c & s & Hs & Hc).
    rewrite Hs, findall_step by (by apply link_single). rewrite <- Hs.
    rewrite (findall_skip_chars _ "["); [by apply IH|apply link_no_start|].
    by apply mem_body.
Qed.

(** The image pattern finds the urls of the images, in order. *)
Lemma findall_image (doc : list item) (prev : option ascii) :
  wf_doc doc = true →
  findall_from image_pattern 0 prev (render doc) = image_urls doc.
Proof.
  revert prev. induction doc as [|i doc IH]; intros prev Hwf; [done|].
  apply wf_doc_cons in Hwf as [Hi Hwf]. cbn [render].
  destruct i as [s|t d|a u|t u].
  - apply prose_spec in Hi as (_ & _ & _ & _ & Hb). cbn [render_item].
    rewrite (findall_skip_chars _ "!"); [by apply IH|apply image_no_start|done].
  - rewrite (findall_skip_chars _ "!"); [by apply IH|apply image_no_start|].
    apply mem_wiki; try done.
    + destruct d; simpl in Hi; [apply andb_true_iff in Hi as [Hi _]|];
        by apply clean_spec in Hi as (_ & _ & _ & _ & ? & _).
    + intros x ->. simpl in Hi. apply andb_true_iff in Hi as [_ Hi].
      by apply clean_spec in Hi as (_ & _ & _ & _ & ? & _).
  - simpl in Hi. apply andb_true_iff in Hi as [Ha Hu]. cbn [render_item].
    change (String "!" (String "[" (body a u)))
      with ("![" +:+ body a u).
    rewrite (findall_match _ _ _ u).
    + rewrite IH by done. done.
    + by rewrite app_cons.
    + rewrite app_assoc', body_app. by apply image_match.
  - simpl in Hi.
    apply andb_true_iff in Hi as [(_ & _ & _ & _ & Ht & _)%clean_spec
                                   (_ & _ & _ & _ & Hu & _)%clean_spec].
    rewrite (findall_skip_chars _ "!"); [by apply IH|apply image_no_start|].
    simpl. by apply mem_body.
Qed.

Lemma last_append (a b : string) (p : option ascii) :
  Str.last (a +:+ b) p = Str.last b (Str.last a p).
Proof.
  revert p. induction a as [|x a IH]; intros p; [done|].
  rewrite app_cons. simpl. apply IH.
Qed.

Lemma last_body (t u : string) (p : option ascii) :
  Str.last (body t u) p = Some ")"%char.
Proof. unfold body. by rewrite !last_append. Qed.

Lemma lazy_any_newline (k : cont) (a s : string) (p : option ascii) (g : string) :
  Str.mem Str.newline a = true →
  (∀ c p' s' g', Str.mem c a = true → k p' (String c s') g' = None) →
  lazy_any k p (a +:+ s) g = None.
Proof.
  revert p. induction a as [|x a IH]; intros p Hn Hk; [done|].
  rewrite app_cons. cbn [lazy_any]. rewrite Hk by apply mem_head.
  destruct (Ascii.eqb_spec x Str.newline) as [?|Hx]; [done|].
  apply IH.
  - cbn [Str.mem] in Hn. by destruct (Ascii.eqb_spec x Str.newline).
  - intros c p' s' g' Hc. by apply Hk, mem_tail.
Qed.

Lemma k_close_on (a : string) (c : ascii) (p : option ascii) (s g : string) :
  Str.mem "]" a = false → Str.mem c a = true → k_close p (String c s) g = None.
Proof. intros Ha Hc. apply k_close_ne. by eapply mem_ne. Qed.

(** The text of a well-formed document does not begin with '('. *)
Lemma render_head (doc : list item) (c : ascii) (s : string) :
  wf_doc doc = true → render doc = String c s → c ≠ "("%char.
Proof.
  induction doc as [|i doc IH]; [done|].
  intros [Hi Hwf]%wf_doc_cons. cbn [render].
  destruct i as [x|t [d|]|a u|t u]; cbn [render_item];
    rewrite ?app_cons; try by intros [= <- _].
  destruct x as [|y x]; [by apply IH|].
  apply prose_spec in Hi as (_ & _ & [Hy _]%mem_cons_false & _).
  rewrite app_cons. by intros [= <- _].
Qed.

Lemma k_close_bracket_doc (doc : list item) (p : option ascii) (g : string) :
  wf_doc doc = true → k_close p (String "]" (render doc)) g = None.
Proof.
  intros Hwf. destruct (render doc) as [|c s] eqn:E; [done|].
  apply k_close_no_paren. by eapply render_head.
Qed.

(** A lazy part that looks for the end of a link, started on a line of a
    well-formed document. *)
Lemma lazy_close_doc (doc : list item) (p : option ascii) (g : string) :
  wf_doc doc = true →
  lazy_any k_close p (render doc) g =
  match line_link doc with
  | Some (u, rest) => Some (u, render rest)
  | None => None
  end.
Proof.
  revert p. induction doc as [|i doc IH]; intros p Hwf; [done|].
  apply wf_doc_cons in Hwf as [Hi Hwf]. cbn [render line_link].
  destruct i as [x|t d|a u|t u].
  - apply prose_spec in Hi as (_ & Hb & _). cbn [render_item].
    destruct (Str.mem Str.newline x) eqn:Hn.
    + apply lazy_any_newline; [done|]. intros c p' s' g'. by apply k_close_on.
    + rewrite lazy_any_skip; [by apply IH|done|].
      intros c p' s' g'. by apply k_close_on.
  - assert (∃ w, render_item (Wiki t d) = String "[" (String "[" (w +:+ "]]"))
                 ∧ Str.mem "]" w = false ∧ Str.mem Str.newline w = false)
      as (w & -> & Hw & Hn).
    { destruct d as [d|]; simpl in Hi.
      - apply andb_true_iff in Hi as [(_ & H1 & _ & _ & _ & _ & H2)%clean_spec
                                       (_ & H3 & _ & _ & _ & _ & H4)%clean_spec].
        exists (t +:+ "|" +:+ d). split; [by rewrite !app_assoc'|].
        by rewrite !mem_app, H1, H2, H3, H4.
      - apply clean_spec in Hi as (_ & H1 & _ & _ & _ & _ & H2). by exists t. }
    rewrite !app_cons, app_assoc'.
    rewrite !lazy_any_step by (done || by apply k_close_ne).
    rewrite lazy_any_skip; [|done|intros c p' s' g'; by apply k_close_on].
    change ("]]" +:+ ?x) with (String "]" (String "]" x)).
    rewrite lazy_any_step by (done || by apply k_close_no_paren).
    rewrite lazy_any_step by (done || by apply k_close_bracket_doc).
    by apply IH.
  - simpl in Hi. apply andb_true_iff in Hi as [Ha Hu].
    pose proof Ha as (_ & Hb & _ & _ & _ & _ & Hn)%clean_spec.
    cbn [render_item]. rewrite !app_cons, body_app.
    rewrite !lazy_any_step by (done || by apply k_close_ne).
    rewrite lazy_any_skip; [|done|intros c p' s' g'; by apply k_close_on].
    apply lazy_any_here. by apply k_close_url.
  - simpl in Hi. apply andb_true_iff in Hi as [Ha Hu].
    pose proof Ha as (_ & Hb & _ & _ & _ & _ & Hn)%clean_spec.
    cbn [render_item]. rewrite !app_cons, body_app.
    rewrite !lazy_any_step by (done || by apply k_close_ne).
    rewrite lazy_any_skip; [|done|intros c p' s' g'; by apply k_close_on].
    apply lazy_any_here. by apply k_close_url.
Qed.

(** When the line is clear the match ends at a link, after which the
    document goes on. *)
Lemma line_link_inv (doc rest : list item) (u : string) :
  line_clear doc = true → line_link doc = Some (u, rest) →
  link_urls doc = u :: link_urls rest
  ∧ length rest < length doc
  ∧ (wf_doc doc = true → wf_doc rest = true)
  ∧ (images_clear doc = true → images_clear rest = true)
  ∧ ∃ m, m ≠ "" ∧ render doc = m +:+ render rest
      ∧ ∀ p, Str.last m p = Some ")"%char.
Proof.
  induction doc as [|i doc IH]; [done|].
  destruct i as [x|t d|a u'|t u']; cbn [line_clear line_link].
  - destruct (Str.mem Str.newline x); [done|]. cbn [orb]. intros Hc Hl.
    destruct (IH Hc Hl) as (H1 & H2 & H3 & H4 & m & Hm & Hr & Hlast).
    split; [done|]. split; [simpl; lia|]. split; [|split; [done|]].
    + intros [_ ?]%wf_doc_cons. auto.
    + exists (x +:+ m). split; [|split].
      * destruct x; [done|]. by rewrite app_cons.
      * cbn [render render_item]. by rewrite Hr, app_assoc'.
      * intros p. by rewrite last_append.
  - intros Hc Hl.
    destruct (IH Hc Hl) as (H1 & H2 & H3 & H4 & m & Hm & Hr & Hlast).
    split; [done|]. split; [simpl; lia|]. split; [|split].
    + intros [_ ?]%wf_doc_cons. auto.
    + simpl. intros [_ ?]%andb_true_iff. auto.
    + exists (render_item (Wiki t d) +:+ m). split; [|split].
      * destruct d; simpl; by rewrite app_cons.
      * cbn [render]. by rewrite Hr, app_assoc'.
      * intros p. by rewrite last_append.
  - done.
  - intros _ [= <- <-]. split; [done|]. split; [simpl; lia|].
    split; [by intros [_ ?]%wf_doc_cons|]. split; [done|].
    exists (render_item (Link t u')). split; [done|]. split; [done|].
    intros p. simpl. apply last_body.
Qed.

Lemma asset_at_wiki (t : string) (d : option string) (rest : list item)
    (prev : option ascii) :
  wf_doc (Wiki t d :: rest) = true → prev ≠ Some "!"%char →
  match_here asset_pattern prev (render (Wiki t d :: rest)) =
  match line_link rest with
  | Some (u, rest') => Some (u, render rest')
  | None => None
  end.
Proof.
  intros Hwf Hp.
  pose proof (lazy_close_doc (Wiki t d :: rest) None "" Hwf) as H.
  cbn [line_link] in H. rewrite <- H. clear H.
  rewrite match_asset_pattern. cbn [render].
  assert (∃ s, render_item (Wiki t d) +:+ render rest = String "[" s) as [s ->].
  { destruct d; simpl; rewrite app_cons; by eexists. }
  rewrite lazy_any_step by (done || by apply k_close_ne).
  cbn [rmatch]. rewrite eqb_ascii_refl.
  destruct prev as [x|]; [|done].
  destruct (Ascii.eqb_spec x "!") as [->|_]; done.
Qed.

(** The links that are not images, found in order; the scan starts where
    no '!' precedes. *)
Lemma findall_asset (doc : list item) (prev : option ascii) :
  wf_doc doc = true → images_clear doc = true → prev ≠ Some "!"%char →
  findall_from asset_pattern 0 prev (render doc) = link_urls doc.
Proof.
  remember (length doc) as n eqn:En. revert doc prev En.
  induction n as [n IH] using lt_wf_ind. intros doc prev -> Hwf Hic Hp.
  destruct doc as [|i doc].
  { apply findall_end. rewrite match_asset_pattern. cbn [rmatch].
    destruct prev as [x|]; [|done]. by destruct (Ascii.eqb x "!"). }
  pose proof Hwf as [Hi Hwf']%wf_doc_cons. cbn [render].
  destruct i as [x|t d|a u|t u].
  - apply prose_spec in Hi as (Hb & _ & _ & _ & Hbang). cbn [render_item].
    rewrite (findall_skip_chars _ "["); [|apply asset_no_start|done].
    apply (IH (length doc) ltac:(simpl; lia) doc _ eq_refl); [done..|].
    destruct x as [|y x]; [done|]. intros Hl.
    assert (Str.mem "!" (String y x) = true) as Hm; [|congruence].
    clear -Hl. revert y Hl. induction x as [|z x IHx]; intros y; simpl.
    + intros [= ->]. done.
    + intros H%IHx. cbn [Str.mem] in H. by destruct (Ascii.eqb y "!").
  - simpl in Hic. apply andb_true_iff in Hic as [Hlc Hic].
    pose proof (asset_at_wiki t d doc prev Hwf Hp) as Hm. cbn [render] in Hm.
    destruct (line_link doc) as [[u rest]|] eqn:Hl.
    + destruct (line_link_inv doc rest u Hlc Hl)
        as (H1 & H2 & H3 & H4 & m & Hne & Hr & Hlast).
      change (link_urls (Wiki t d :: doc)) with (link_urls doc). rewrite H1.
      rewrite Hr, <- app_assoc' in *.
      rewrite (findall_match _ _ _ u); [| |done].
      * f_equal.
        apply (IH (length rest) ltac:(simpl; lia) rest _ eq_refl); auto.
        rewrite last_append, Hlast. done.
      * destruct d; simpl; by rewrite app_cons.
    + assert (∃ w, render_item (Wiki t d) = String "[" (String "[" w)
                   ∧ Str.mem "[" w = false ∧ Str.last w (Some "["%char) = Some "]"%char)
        as (w & Hw & Hwb & Hwl).
      { destruct d as [d|]; simpl in Hi.
        - apply andb_true_iff in Hi as [(H1 & _)%clean_spec (H3 & _)%clean_spec].
          exists (t +:+ "|" +:+ d +:+ "]]"). split; [done|].
          split; [by rewrite !mem_app, H1, H3|]. by rewrite !last_append.
        - apply clean_spec in Hi as (H1 & _). exists (t +:+ "]]").
          split; [done|]. split; [by rewrite !mem_app, H1|].
          by rewrite !last_append. }
      rewrite Hw in *. rewrite !app_cons in *.
      rewrite findall_step by done.
      rewrite findall_step.
      2:{ rewrite match_asset_pattern in *. cbn [rmatch] in *.
          rewrite eqb_ascii_refl in *.
          assert (lazy_any k_close (Some "["%char) (String "[" (w +:+ render doc)) ""
                  = None) as Hx.
          { destruct prev as [y|]; [|done].
            by destruct (Ascii.eqb_spec y "!") as [->|_]. }
          by rewrite lazy_any_step in Hx by (done || by apply k_close_ne). }
      rewrite (findall_skip_chars _ "["); [|apply asset_no_start|done].
      apply (IH (length doc) ltac:(simpl; lia) doc _ eq_refl); [done..|].
      by rewrite Hwl.
  - simpl in Hi.
    apply andb_true_iff in Hi as [(Ha & Ha2 & Ha3 & Ha4 & _)%clean_spec
                                   (Hu & Hu2 & Hu3 & Hu4 & _)%clean_spec].
    cbn [render_item]. rewrite !app_cons.
    rewrite findall_step by (by apply asset_no_start).
    rewrite findall_step by apply asset_after_bang.
    rewrite (findall_skip_chars _ "["); [|apply asset_no_start|by apply mem_body].
    apply (IH (length doc) ltac:(simpl; lia) doc _ eq_refl); [done..|].
    by rewrite last_body.
  - simpl in Hi. apply andb_true_iff in Hi as [Ht Hu].
    cbn [render_item].
    change (String "[" (body t u)) with ("[" +:+ body t u).
    rewrite (findall_match _ _ _ u).
    + change (link_urls (Link t u :: doc)) with (u :: link_urls doc). f_equal.
      apply (IH (length doc) ltac:(simpl; lia) doc _ eq_refl); [done..|].
      change ("[" +:+ body t u) with (String "[" (body t u)).
      cbn [Str.last]. by rewrite last_body.
    + by rewrite app_cons.
    + rewrite app_assoc', body_app. by apply asset_match.
Qed.

Lemma urls_length (doc : list item) :
  length (image_urls doc ++ link_urls doc) = length (urls doc).
Proof.
  rewrite length_app. induction doc as [|i doc IH]; [done|].
  destruct i; simpl in *; lia.
Qed.

(** * The claims *)




(** C2, as stated, fails twice.  The urls of a link and a later image come
    out in the other order, and the url of an image that follows a
    wiki-link on its line comes out twice: two strings for one link. *)
Lemma urls_reordered_and_repeated :
  render doc_link_image = "[doc](b.pdf) then ![pic](a.png)"
  ∧ wf_doc doc_link_image = true
  ∧ urls doc_link_image = ["b.pdf"; "a.png"]
  ∧ asset_matches_of (render doc_link_image) = ["a.png"; "b.pdf"]
  ∧ render doc_wiki_image = "[[Other Note]] and ![img](images/pic.png)"
  ∧ wf_doc doc_wiki_image = true
  ∧ urls doc_wiki_image = ["images/pic.png"]
  ∧ asset_matches_of (render doc_wiki_image) = ["images/pic.png"; "images/pic.png"].
Proof. repeat split; by vm_compute. Qed.

(** The scenario of a note with a wiki-link and an image, written on one
    line: the image is found twice and copied twice, for a total of four. *)
Example wiki_link_before_image :
  printed (trace (run vault_links "v/wiki.md" "out").2) =
  [ "Exporting 'v/wiki.md' and linked files to 'out'...";
    "Copied target file: wiki.md";
    "Copied linked file: Other Note.md as Other Note.md";
    "Copied asset: pic.png as pic.png";
    "Copied asset: pic.png as pic_images.png";
    String Str.newline "Export complete!";
    "- Target file: 1"; "- Linked files: 1"; "- Assets: 2";
    "- Total files copied: 4" ].
Proof. by vm_compute. Qed.

(** C2, amended.  For a text made of prose, wiki-links, images and links
    whose parts contain no bracket, parenthesis, '!', '|' or newline,
    the wiki-link pattern returns the targets of the wiki-links, in order
    and with repetitions, and the image pattern the urls of the images
    likewise.  When no wiki-link is followed on its line by an image with
    no link between them, the third pattern returns the urls of the links
    that are not images, in order, and [find_asset_references] works on the
    urls of the images followed by those of the links: as many strings as
    there are links and images, the images first. *)
Theorem extraction_of_links (doc : list item) :
  wf_doc doc = true →
  findall link_pattern (render doc) = wiki_targets doc
  ∧ findall image_pattern (render doc) = image_urls doc
  ∧ (images_clear doc = true →
     findall asset_pattern (render doc) = link_urls doc
     ∧ asset_matches_of (render doc) = image_urls doc ++ link_urls doc
     ∧ length (asset_matches_of (render doc)) = length (urls doc)).
Proof.
  intros Hwf. split; [by apply findall_wiki|]. split; [by apply findall_image|].
  intros Hic.
  assert (findall asset_pattern (render doc) = link_urls doc) as Ha
    by (by apply findall_asset).
  split; [done|]. unfold asset_matches_of. rewrite Ha.
  unfold findall. rewrite findall_image by done. split; [done|].
  apply urls_length.
Qed.

Lemma extraction_of_links_witness :
  let doc := [ Text "see "; Wiki "Other Note" (Some "the other");
               Text (String Str.newline "and "); Image "img" "images/pic.png";
               Text " or "; Link "doc" "b.pdf"; Link "doc" "b.pdf" ] in
  findall link_pattern (render doc) = ["Other Note"]
  ∧ asset_matches_of (render doc) = ["images/pic.png"; "b.pdf"; "b.pdf"].
Proof.
  intros doc.
  destruct (extraction_of_links doc) as (H1 & _ & H3); [reflexivity|].
  destruct H3 as (_ & H3 & _); [reflexivity|].
  split; [exact H1 | exact H3].
Defined.

(** C3, as stated, fails: when the target has the filename too, the first
    of the two files that share it is renamed as well. *)
Lemma first_of_two_renamed :
  copied_as (trace (run vault_index "vault/index.md" "out").2) =
  [ (Path "vault/index.md", Path "out/index.md");
    (Path "vault/A/index.md", Path "out/index_A.md");
    (Path "vault/B/index.md", Path "out/index_B.md") ]
  ∧ (Path "vault/A/index.md", Path "out/index.md")
    ∉ copied_as (trace (run vault_index "vault/index.md" "out").2).
Proof.
  split; [by vm_compute|]. intros H. vm_compute in H.
  repeat (apply elem_of_cons in H as [H|H]; [discriminate H|]).
  by apply elem_of_nil in H.
Qed.

(** C3, amended.  The copies of a loop of [copy_files_to_output] are
    those of its plan.  A file whose filename is taken is copied under its
    renamed name: the stem before the first '.', an underscore, the name of
    the parent directory, and the '.' with what followed it; without a '.'
    the filename, an underscore and the name of the parent directory.  Of
    two files of one filename, in the order A then B, A keeps the filename
    when it is still free and is renamed with its own directory when it is
    taken; B is renamed with its directory in either case, and when the
    two directories differ in name so do the two renamed names. *)
Theorem conflict_rename (pA pB : path) (between after : list path)
    (used : gset string) :
  name pA = name pB → name (parent pA) ≠ name (parent pB) →
  let plan := plan_loop (pA :: between ++ pB :: after) used in
  (∀ what out w u w',
     copy_loop what out (pA :: between ++ pB :: after) used w = (Done u, w') →
     copied_as (trace w') = copied_as (trace w) ++ ((λ e, (e.1, out // e.2)) <$> plan))
  ∧ (∀ p u, name p ∈ u → output_filename_of p u = renamed p)
  ∧ (∀ p stem rest,
       name p = stem +:+ String "." rest → Str.mem "." stem = false →
       renamed p = stem +:+ "_" +:+ name (parent p) +:+ "." +:+ rest)
  ∧ (∀ p, Str.mem "." (name p) = false →
       renamed p = name p +:+ "_" +:+ name (parent p))
  ∧ plan !! 0 = Some (pA, if decide (name pA ∈ used) then renamed pA else name pA)
  ∧ plan !! S (length between) = Some (pB, renamed pB)
  ∧ renamed pA ≠ renamed pB.
Proof.
  intros Hn Hp plan. split; [|split; [|split; [|split; [|split; [|split]]]]].
  - intros what out w u w'. apply copy_loop_copies.
  - apply output_filename_taken.
  - intros p stem rest Hs Hd. unfold renamed. rewrite Hs at 1.
    by rewrite cut_first_dot_some.
  - intros p Hd. unfold renamed. by rewrite cut_first_dot_none.
  - unfold plan. simpl. by rewrite output_filename_cases.
  - by apply plan_loop_second.
  - by apply renamed_apart.
Qed.

Lemma conflict_rename_witness :
  plan_loop ([Path "vault/A/index.md"] ++ [Path "vault/B/index.md"]) ∅ =
  [ (Path "vault/A/index.md", "index.md"); (Path "vault/B/index.md", "index_B.md") ]
  ∧ plan_loop (Path "vault/A/index.md" :: [] ++ Path "vault/B/index.md" :: []) ∅ !! 1 =
    Some (Path "vault/B/index.md", renamed (Path "vault/B/index.md")).
Proof.
  split; [by vm_compute|].
  destruct (conflict_rename (Path "vault/A/index.md") (Path "vault/B/index.md")
              [] [] ∅) as (_ & _ & _ & _ & _ & H & _).
  - reflexivity.
  - vm_compute. discriminate.
  - exact H.
Defined.

(** C4.  A wiki-link target that does not end in '.md', in any letter case,
    gets '.md' appended once; a target that does is left as it is.  The
    result always ends in '.md', so applying the rule again changes
    nothing, and it is the suffixed string that the loop of
    [find_linked_files] resolves. *)
Theorem wiki_target_md_suffix (m : string) :
  (ends_with_md m → with_md m = m)
  ∧ (¬ ends_with_md m → with_md m = m +:+ ".md")
  ∧ ends_with_md (with_md m)
  ∧ with_md (with_md m) = with_md m
  ∧ ∀ (base_dir : path) (rest : list string) (linked_files : list path) (w : world),
      linked_loop base_dir (m :: rest) linked_files w =
      linked_loop base_dir rest
        (linked_files ++ option_list (resolve w base_dir (with_md m)))
        (add_trace w (resolution_events w base_dir (with_md m)
                        (linked_warning (with_md m)))).
Proof.
  split; [|split; [|split; [|split]]].
  - intros H%endswith_md_iff. unfold with_md. by rewrite H.
  - intros H. unfold with_md. destruct (Str.endswith _ _) eqn:E; [|done].
    by apply endswith_md_iff in E.
  - apply with_md_ends.
  - pose proof (with_md_ends m) as H%endswith_md_iff.
    unfold with_md at 1. by rewrite H.
  - intros. apply linked_loop_step.
Qed.

Lemma wiki_target_md_suffix_witness :
  with_md "Page.MD" = "Page.MD" ∧ with_md "Other Note" = "Other Note.md".
Proof.
  destruct (wiki_target_md_suffix "Page.MD") as (H1 & _).
  destruct (wiki_target_md_suffix "Other Note") as (_ & H2 & _).
  split.
  - apply H1. exists "Page", "M"%char, "D"%char. auto.
  - apply H2. intros H%endswith_md_iff. vm_compute in H. discriminate.
Defined.

(** C5.  A markdown-link or image reference that begins with 'http://',
    'https://' or 'ftp://' leaves no mark on the loop of
    [find_asset_references]: the loop runs as if the reference were not in
    the list, so it is not probed, not warned about and not an asset.  The
    other references are resolved as they are written, with nothing
    appended. *)
Theorem remote_reference_skipped (base_dir : path) (m : string)
    (before after : list string) (assets : list path) (w : world) :
  remote m →
  asset_loop base_dir (before ++ m :: after) assets w =
  asset_loop base_dir (before ++ after) assets w
  ∧ ∀ all_matches,
      asset_loop base_dir all_matches assets w =
      (Done (assets ++ omap (resolve w base_dir) (local_refs all_matches)),
       add_trace w (flat_map (λ x, resolution_events w base_dir x (asset_warning x))
                      (local_refs all_matches))).
Proof.
  intros H%is_url_iff. split; [|intros; apply asset_loop_run].
  rewrite !asset_loop_run. unfold local_refs.
  rewrite !List.filter_app. simpl. by rewrite H.
Qed.

Lemma remote_reference_skipped_witness :
  asset_loop (Path "v") (["a.png"] ++ "https://x.org/a.png" :: ["b.pdf"]) []
    (MkWorld vault_links [] []) =
  asset_loop (Path "v") (["a.png"] ++ ["b.pdf"]) [] (MkWorld vault_links [] []).
Proof.
  apply (remote_reference_skipped (Path "v") "https://x.org/a.png"
           ["a.png"] ["b.pdf"] [] (MkWorld vault_links [] [])).
  exists "x.org/a.png". right. left. reflexivity.
Defined.

(** C6.  When the target file does not exist, or exists without a '.md'
    suffix (in any letter case), [main] exits with status 1 after one probe
    of the target and a message on standard error that names it: no
    directory is made, no file is read or copied, and the file system is
    as it was. *)
Theorem invalid_target_exits (target_file output_directory : string) (w : world) :
  stat w (Path target_file) = None
  ∨ Str.lower (suffix (Path target_file)) ≠ ".md" →
  ∃ msg,
    main target_file output_directory w =
    (Exit 1, add_trace w [Stat (Path target_file); Stderr msg])
    ∧ (msg = missing_message target_file ∨ msg = not_markdown_message target_file)
    ∧ fs (main target_file output_directory w).2 = fs w
    ∧ exit_status (main target_file output_directory w).1 ≠ 0.
Proof.
  intros H.
  destruct (stat w (Path target_file)) as [n|] eqn:Hs.
  - destruct H as [|H]; [done|].
    exists (not_markdown_message target_file).
    rewrite (main_exit _ _ w _ 1
               (parse_arguments_not_markdown _ _ w ltac:(by rewrite Hs) H)).
    simpl. auto.
  - exists (missing_message target_file).
    rewrite (main_exit _ _ w _ 1 (parse_arguments_missing _ _ w Hs)).
    simpl. auto.
Qed.

Lemma invalid_target_exits_witness :
  ∃ msg,
    run vault_urls "v/plain.txt" "out" =
    (Exit 1, add_trace (MkWorld vault_urls [] []) [Stat (Path "v/plain.txt"); Stderr msg])
    ∧ (msg = missing_message "v/plain.txt" ∨ msg = not_markdown_message "v/plain.txt")
    ∧ fs (run vault_urls "v/plain.txt" "out").2 = vault_urls
    ∧ exit_status (run vault_urls "v/plain.txt" "out").1 ≠ 0.
Proof.
  apply (invalid_target_exits "v/plain.txt" "out" (MkWorld vault_urls [] [])).
  right. vm_compute. discriminate.
Defined.


(** The scenario of a missing page: the warning names 'Missing Page.md',
    no linked file is counted and the run returns. *)
Example missing_page_scenario :
  (run vault_urls "v/note.md" "out").1 = Done ()
  ∧ printed (trace (run vault_urls "v/note.md" "out").2) =
    [ "Exporting 'v/note.md' and linked files to 'out'...";
      "Warning: Linked file 'https://x.org/README.md' not found.";
      "Warning: Linked file 'Missing Page.md' not found.";
      "Copied target file: note.md";
      String Str.newline "Export complete!";
      "- Target file: 1"; "- Linked files: 0"; "- Assets: 0";
      "- Total files copied: 1" ].
Proof. by vm_compute. Qed.

(** C8.  Run the export from a well-formed state into an output directory
    that is empty or not there; empty the output directory, leaving the
    rest as the run left it; run the export again.  The second run ends as
    the first did, in the same state: the same outcome, the same lines,
    and the same files with the same contents in the output directory. *)
Theorem export_twice (target_file output_directory : string) (w w1 : world)
    (r : outcome unit) :
  wf_world w → fresh w output_directory →
  main target_file output_directory w = (r, w1) →
  main target_file output_directory
    (MkWorld (emptied (place w (Path output_directory)) (fs w1)) (cwd w) (trace w))
  = (r, w1).
Proof.
  intros Hw Hf Hm. set (d := place w (Path output_directory)).
  rewrite main_export in *. rewrite bind_run in Hm. rewrite bind_run.
  destruct (parse_arguments target_file output_directory w) as [o wp] eqn:Ep.
  assert (emptied d (fs w) = fs w) as Hfresh by (by apply emptied_fresh).
  destruct o as [[]|n|e].
  - apply parse_arguments_done in Ep as (Hp & Hs & m & Hmk & ->).
    pose proof (mkdirs_walk _ _ _ _ Hmk) as [Hwalk Hdir].
    pose proof (mkdirs_incl _ _ _ _ Hmk) as Hincl.
    destruct Hw as (Hwf & Hroot & Hcwd).
    apply (export_kept _ _ _ _ d) in Hm as Hk; [| |done|done].
    2:{ split; [by eapply mkdirs_wf|].
        split; by eapply lookup_weaken. }
    destruct Hk as (_ & Hg & _).
    rewrite (emptied_grows d _ _ Hg). simpl fs.
    assert (fs w ⊆ emptied d m) as H1.
    { rewrite <- Hfresh. by apply emptied_mono. }
    pose proof (emptied_subseteq d m) as H2.
    rewrite (parse_arguments_run _ _ _ m); [exact Hm| |done|].
    + by apply (present_weaken w).
    + by apply (mkdirs_between (fs w)).
  - destruct (parse_arguments_stop _ _ _ _ _ Ep ltac:(done)) as [Hfs Hcw].
    injection Hm as <- <-. rewrite Hfs, Hfresh.
    replace (MkWorld (fs w) (cwd w) (trace w)) with w by (by destruct w).
    by rewrite Ep.
  - destruct (parse_arguments_stop _ _ _ _ _ Ep ltac:(done)) as [Hfs Hcw].
    injection Hm as <- <-. rewrite Hfs, Hfresh.
    replace (MkWorld (fs w) (cwd w) (trace w)) with w by (by destruct w).
    by rewrite Ep.
Qed.

Lemma export_twice_witness :
  let w := MkWorld vault_links [] [] in
  main "v/wiki.md" "out"
    (MkWorld (emptied (place w (Path "out")) (fs (main "v/wiki.md" "out" w).2))
       (cwd w) (trace w))
  = main "v/wiki.md" "out" w.
Proof.
  intros w.
  rewrite (export_twice "v/wiki.md" "out" w (main "v/wiki.md" "out" w).2
             (main "v/wiki.md" "out" w).1).
  - by destruct (main "v/wiki.md" "out" w).
  - apply (@bool_decide_unpack _ (wf_world_dec w)). by vm_compute.
  - apply (@bool_decide_unpack _ (fresh_dec w "out")). by vm_compute.
  - by destruct (main "v/wiki.md" "out" w).
Defined.

(** C9, as stated, fails: a wiki-link whose target is a URL that ends in
    '.md' gets no '.md' appended; the candidates and the warning carry the
    URL as written. *)
Lemma url_wiki_target_keeps_md :
  is_url "https://x.org/README.md" = true
  ∧ with_md "https://x.org/README.md" ≠ "https://x.org/README.md" +:+ ".md"
  ∧ linked_loop (Path "v") ["https://x.org/README.md"] [] (MkWorld vault_urls [] []) =
    (Done [],
     MkWorld vault_urls []
       [ Stat (Path "https://x.org/README.md");
         Stat (Path "v" // "https://x.org/README.md");
         Print "Warning: Linked file 'https://x.org/README.md' not found." ]).
Proof. split; [|split]; by vm_compute. Qed.

(** C9, amended.  The loop of [find_linked_files] does not skip a
    wiki-link whose target is a URL: the '.md' rule applies to it as to
    any target (appended unless the target ends in '.md' already), both
    candidates are probed, and when neither is a regular file the warning
    names the string after that rule.  Only the loop of
    [find_asset_references] skips URLs. *)
Theorem remote_wiki_link_resolved (base_dir : path) (m : string)
    (rest : list string) (found : list path) (w : world) :
  remote m →
  (¬ ends_with_md m → with_md m = m +:+ ".md")
  ∧ (ends_with_md m → with_md m = m)
  ∧ linked_loop base_dir (m :: rest) found w =
    linked_loop base_dir rest
      (found ++ option_list (resolve w base_dir (with_md m)))
      (add_trace w (resolution_events w base_dir (with_md m)
                      (linked_warning (with_md m))))
  ∧ (regular w (Path (with_md m)) = false →
     regular w (base_dir // with_md m) = false →
     linked_loop base_dir (m :: rest) found w =
     linked_loop base_dir rest found
       (add_trace w (probes w (Path (with_md m))
                     ++ probes w (base_dir // with_md m)
                     ++ [Print (linked_warning (with_md m))])))
  ∧ asset_loop base_dir (m :: rest) found w = asset_loop base_dir rest found w.
Proof.
  intros H%is_url_iff. split; [|split; [|split; [|split]]].
  - intros Hn. unfold with_md. destruct (Str.endswith _ _) eqn:E; [|done].
    by apply endswith_md_iff in E.
  - intros Hm%endswith_md_iff. unfold with_md. by rewrite Hm.
  - apply linked_loop_step.
  - intros H1 H2. rewrite linked_loop_step. unfold resolve, resolution_events.
    rewrite H1, H2. simpl. by rewrite app_nil_r.
  - rewrite asset_loop_step. by rewrite H.
Qed.

Lemma remote_wiki_link_resolved_witness :
  with_md "http://x.org/page" = "http://x.org/page" +:+ ".md"
  ∧ linked_loop (Path "v") ["http://x.org/page"] [] (MkWorld vault_urls [] []) =
    linked_loop (Path "v") [] []
      (add_trace (MkWorld vault_urls [] [])
         (probes (MkWorld vault_urls [] []) (Path (with_md "http://x.org/page"))
          ++ probes (MkWorld vault_urls [] []) (Path "v" // with_md "http://x.org/page")
          ++ [Print (linked_warning (with_md "http://x.org/page"))])).
Proof.
  destruct (remote_wiki_link_resolved (Path "v") "http://x.org/page" [] []
              (MkWorld vault_urls [] [])) as (H1 & _ & _ & H2 & _).
  { exists "x.org/page". left. reflexivity. }
  split.
  - apply H1. intros H%endswith_md_iff. vm_compute in H. discriminate.
  - apply H2; by vm_compute.
Defined.

(** C10, as stated, fails: of the two copies of v/x.md the first is not
    under the bare filename, which another file has taken. *)
Lemma first_copy_renamed :
  copied_as (trace (run vault_pages "v/note.md" "out").2) =
  [ (Path "v/note.md", Path "out/note.md");
    (Path "v/other/x.md", Path "out/x.md");
    (Path "v/x.md", Path "out/x_v.md");
    (Path "v/x.md", Path "out/x_v.md") ]
  ∧ (Path "v/x.md", Path "out/x.md")
    ∉ copied_as (trace (run vault_pages "v/note.md" "out").2).
Proof.
  split; [by vm_compute|]. intros H. vm_compute in H.
  repeat (apply elem_of_cons in H as [H|H]; [discriminate H|]).
  by apply elem_of_nil in H.
Qed.

(** The last writer wins: the third page replaces the copy of the second,
    and the total still counts four copies for three files. *)
Example last_writer_wins :
  copied_as (trace (run vault_subs "v/note.md" "out").2) =
  [ (Path "v/note.md", Path "out/note.md");
    (Path "a/sub/x.md", Path "out/x.md");
    (Path "b/sub/x.md", Path "out/x_sub.md");
    (Path "c/sub/x.md", Path "out/x_sub.md") ]
  ∧ fs (run vault_subs "v/note.md" "out").2 !! ["out"; "x_sub.md"] = Some (File "third")
  ∧ List.last (printed (trace (run vault_subs "v/note.md" "out").2)) ""
    = "- Total files copied: 4".
Proof. by vm_compute. Qed.

(** C10, amended.  The copies of a loop of [copy_files_to_output] are
    those of its plan.  A file that is in the list twice is copied twice: the
    first time under its filename when that is still free and under its
    renamed name when it is taken, the second time under its renamed name,
    whether or not that name is taken.  A copy onto a file that is already
    in the output directory replaces its content without a warning and the
    loop goes on.  A run that returns has made one copy for the target and
    one for every entry of the two lists, and its last line gives that
    count. *)
Theorem duplicate_copies (p : path) (between after : list path) (used : gset string) :
  let plan := plan_loop (p :: between ++ p :: after) used in
  (∀ what out w u w',
     copy_loop what out (p :: between ++ p :: after) used w = (Done u, w') →
     copied_as (trace w') = copied_as (trace w) ++ ((λ e, (e.1, out // e.2)) <$> plan))
  ∧ plan !! 0 = Some (p, if decide (name p ∈ used) then renamed p else name p)
  ∧ plan !! S (length between) = Some (p, renamed p)
  ∧ (∀ what out rest u w d data old,
       wf_world w → wf_path p → locate w out = Some d → fs w !! d = Some Dir →
       stat w p = Some (File data) →
       fs w !! (d ++ [output_filename_of p u]) = Some (File old) →
       locate w p ≠ Some (d ++ [output_filename_of p u]) →
       copy_loop what out (p :: rest) u w =
       copy_loop what out rest ({[output_filename_of p u]} ∪ u)
         (add_trace
            (with_fs (<[d ++ [output_filename_of p u] := File data]> (fs w)) w)
            [Copy p (out // output_filename_of p u);
             Print (copied_line what p (output_filename_of p u))]))
  ∧ (∀ target_file output_directory w w',
       main target_file output_directory w = (Done (), w') →
       ∃ linked_files assets,
         copied_as (trace w') =
         copied_as (trace w)
         ++ ((λ e, (e.1, Path output_directory // e.2))
               <$> copy_plan (Path target_file) linked_files assets)
         ∧ length (copy_plan (Path target_file) linked_files assets)
           = 1 + length linked_files + length assets
         ∧ List.last (trace w') (Print "") =
           Print ("- Total files copied: "
                  +:+ pretty (1 + length linked_files + length assets))).
Proof.
  intros plan. split; [|split; [|split; [|split]]].
  - intros what out w u w'. apply copy_loop_copies.
  - unfold plan. simpl. by rewrite output_filename_cases.
  - by apply plan_loop_second.
  - intros what out rest u w d data old Hw Hp Hl Hd Hs Ho Hne.
    by apply (copy_loop_overwrite what out p rest u w d data old).
  - intros t o w w' (l & a & H1 & H2)%main_copies. exists l, a.
    rewrite copy_plan_length in H2. by rewrite copy_plan_length.
Qed.

Lemma duplicate_copies_witness :
  let w := MkWorld (<[["out"; "x_sub.md"] := File "second"]>
                      (<[["out"] := Dir]> vault_subs)) [] [] in
  fs (copy_loop "linked file" (Path "out") [Path "c/sub/x.md"] {[ "x.md" ]} w).2
    !! ["out"; "x_sub.md"] = Some (File "third")
  ∧ ∃ linked_files assets : list path,
      List.last (trace (run vault_subs "v/note.md" "out").2) (Print "") =
      Print ("- Total files copied: "
             +:+ pretty (1 + length linked_files + length assets)).
Proof.
  intros w.
  destruct (duplicate_copies (Path "c/sub/x.md") [] [] {[ "x.md" ]})
    as (_ & _ & _ & H3 & H4).
  split.
  - rewrite (H3 "linked file" (Path "out") [] {[ "x.md" ]} w ["out"] "third" "second").
    + by vm_compute.
    + apply (@bool_decide_unpack _ (wf_world_dec w)). by vm_compute.
    + apply wf_Path.
    + by vm_compute.
    + by vm_compute.
    + by vm_compute.
    + by vm_compute.
    + by vm_compute.
  - destruct (H4 "v/note.md" "out" (MkWorld vault_subs [] [])
                (run vault_subs "v/note.md" "out").2) as (l & a & _ & _ & H).
    + by vm_compute.
    + by exists l, a.
Defined.

(** * Further properties *)

Ltac by_decision inst :=
  apply (@bool_decide_unpack _ inst); vm_compute; exact I.

(** ** What a match can capture *)

(** A lazy part that matches ran over a stretch of one line, and what
    follows it matched at the end of the stretch and nowhere before. *)
Lemma lazy_any_inv (k : cont) (p : option ascii) (s g : string)
    (res : string * string) :
  lazy_any k p s g = Some res →
  ∃ a s', s = a +:+ s' ∧ Str.mem Str.newline a = false
    ∧ k (Str.last a p) s' g = Some res
    ∧ ∀ a1 c a2, a = a1 +:+ String c a2 →
        k (Str.last a1 p) (String c a2 +:+ s') g = None.
Proof.
  revert p. induction s as [|x s IH]; intros p; cbn [lazy_any].
  - destruct (k p "" g) as [r|] eqn:E; [|done]. intros [= <-].
    exists "", "". repeat split; [done|]. intros a1 c a2 H. by destruct a1.
  - destruct (k p (String x s) g) as [r|] eqn:E.
    + intros [= <-]. exists "", (String x s). repeat split; [done|].
      intros a1 c a2 H. by destruct a1.
    + destruct (Ascii.eqb_spec x Str.newline) as [|Hx]; [done|].
      intros (a & s' & -> & Hn & Hk & Hmin)%IH.
      exists (String x a), s'. rewrite app_cons. split; [done|].
      split; [simpl; by destruct (Ascii.eqb_spec x Str.newline)|].
      split; [done|]. intros a1 c a2 H. destruct a1 as [|y a1].
      * rewrite app_empty_l in H. injection H as <- <-.
        by rewrite app_cons.
      * rewrite app_cons in H. injection H as <- ->.
        cbn [Str.last]. by apply Hmin.
Qed.

(** On one line, a lazy part finds a match when what follows it matches
    somewhere. *)
Lemma lazy_any_some (k : cont) (a s : string) (p : option ascii) (g : string) :
  Str.mem Str.newline a = false → is_Some (k (Str.last a p) s g) →
  is_Some (lazy_any k p (a +:+ s) g).
Proof.
  revert p. induction a as [|x a IH]; intros p Hn Hk.
  - rewrite app_empty_l. destruct Hk as [r Hk]. exists r. by apply lazy_any_here.
  - apply mem_cons_false in Hn as [Hx Hn]. rewrite app_cons. cbn [lazy_any].
    destruct (k p (String x (a +:+ s)) g); [done|].
    destruct (Ascii.eqb_spec x Str.newline); [done|]. by apply IH.
Qed.

Lemma mem_split (c : ascii) (a : string) :
  Str.mem c a = true → ∃ a1 a2, a = a1 +:+ String c a2.
Proof.
  induction a as [|x a IH]; [done|]. simpl.
  destruct (Ascii.eqb_spec x c) as [->|_].
  - intros _. by exists "", a.
  - intros (a1 & a2 & ->)%IH. by exists (String x a1), a2.
Qed.

Lemma keeps_group_lit (c : ascii) (k : cont) :
  keeps_group k → keeps_group (rmatch (Lit c) k).
Proof.
  intros Hk p [|x s] g res; simpl; [done|].
  destruct (Ascii.eqb x c); [apply Hk|done].
Qed.

Lemma keeps_group_lazy (k : cont) : keeps_group k → keeps_group (lazy_any k).
Proof.
  intros Hk p s g res (a & s' & _ & _ & H & _)%lazy_any_inv. by eapply Hk.
Qed.

Lemma keeps_group_final : keeps_group final.
Proof. by intros p s g res [= <-]. Qed.

Lemma keeps_group_k_paren : keeps_group k_paren.
Proof. apply keeps_group_lit, keeps_group_final. Qed.

Lemma keeps_group_k_end : keeps_group k_end.
Proof. do 2 apply keeps_group_lit. apply keeps_group_final. Qed.

Lemma keeps_group_k_opt : keeps_group k_opt.
Proof.
  intros p s g res. unfold k_opt. cbn [rmatch].
  destruct s as [|x s].
  - apply keeps_group_k_end.
  - destruct (Ascii.eqb x "|").
    + destruct (lazy_any k_end (Some x) s g) as [r|] eqn:E.
      * intros [= <-]. by eapply keeps_group_lazy, E; apply keeps_group_k_end.
      * apply keeps_group_k_end.
    + apply keeps_group_k_end.
Qed.

(** The text captured by a group around a lazy part. *)
Lemma group_lazy_inv (k : cont) (p : option ascii) (s g : string)
    (res : string * string) :
  keeps_group k → rmatch (Group LazyAny) k p s g = Some res →
  ∃ s', s = res.1 +:+ s' ∧ Str.mem Str.newline res.1 = false
    ∧ k (Str.last res.1 p) s' res.1 = Some res
    ∧ ∀ a1 c a2, res.1 = a1 +:+ String c a2 →
        k (Str.last a1 p) (String c a2 +:+ s') a1 = None.
Proof.
  intros Hk. cbn [rmatch].
  intros (a & s' & -> & Hn & H & Hmin)%lazy_any_inv.
  rewrite consumed_app in H. pose proof (Hk _ _ _ _ H) as ->.
  exists s'. repeat split; [done..|].
  intros a1 c a2 Ha. specialize (Hmin a1 c a2 Ha).
  rewrite Ha, app_assoc', consumed_app in Hmin. done.
Qed.

Lemma k_end_inv (p : option ascii) (s g : string) (res : string * string) :
  k_end p s g = Some res → ∃ rest, s = String "]" (String "]" rest) ∧ res = (g, rest).
Proof.
  unfold k_end. destruct s as [|x [|y s]]; cbn [rmatch]; [done| |].
  - by destruct (Ascii.eqb x "]").
  - destruct (Ascii.eqb_spec x "]") as [->|]; [|done].
    destruct (Ascii.eqb_spec y "]") as [->|]; [|done].
    intros [= <-]. by exists s.
Qed.

Lemma k_end_some (p : option ascii) (rest g : string) :
  k_end p (String "]" (String "]" rest)) g = Some (g, rest).
Proof. unfold k_end. by rewrite !rmatch_lit_eq. Qed.

(** What follows the target of a wiki-link matches from a bar on when it
    matches further along the line. *)
Lemma k_opt_from_bar (a2 s : string) (p p' : option ascii) (g g' : string) :
  Str.mem Str.newline a2 = false → is_Some (k_opt p s g) →
  is_Some (k_opt p' (String "|" (a2 +:+ s)) g').
Proof.
  intros Hn [r Hr]. unfold k_opt in *. cbn [rmatch] in *.
  rewrite eqb_ascii_refl.
  assert (is_Some (lazy_any k_end (Some "|"%char) (a2 +:+ s) g')) as [r' ->];
    [|done].
  assert (∀ q r0, k_end q s g = Some r0 →
            is_Some (lazy_any k_end (Some "|"%char) (a2 +:+ s) g')) as Hend.
  { intros q r0 (rest & -> & _)%k_end_inv. apply lazy_any_some; [done|].
    by rewrite k_end_some. }
  destruct s as [|x s]; [by eapply Hend|].
  destruct (Ascii.eqb_spec x "|") as [->|_]; [|by eapply Hend].
  destruct (lazy_any k_end (Some "|"%char) s g) as [r1|] eqn:E; [|by eapply Hend].
  apply lazy_any_inv in E as (b & s' & -> & Hb & (rest & -> & _)%k_end_inv & _).
  change (String "|" (b +:+ ?t)) with (String "|" b +:+ t).
  rewrite <- app_assoc'. apply lazy_any_some.
  - rewrite mem_app, Hn. simpl. by rewrite Hb.
  - by rewrite k_end_some.
Qed.

(** The group of a match of the wiki-link pattern. *)
Lemma link_pattern_group (prev : option ascii) (s g rest : string) :
  match_here link_pattern prev s = Some (g, rest) →
  Str.mem "|" g = false ∧ Str.mem Str.newline g = false
  ∧ ∃ s', s = "[[" +:+ g +:+ s'.
Proof.
  rewrite match_link_pattern.
  destruct s as [|x [|y s]]; simpl; [done|by destruct (Ascii.eqb x "[")|].
  destruct (Ascii.eqb_spec x "[") as [->|]; [|done].
  destruct (Ascii.eqb_spec y "[") as [->|]; [|done].
  intros H. apply (group_lazy_inv k_opt) in H as (s' & -> & Hn & Hk & Hmin);
    [|apply keeps_group_k_opt].
  simpl in *. split; [|split; [done|by exists s']].
  destruct (Str.mem "|" g) eqn:E; [|done].
  apply mem_split in E as (a1 & a2 & ->).
  specialize (Hmin a1 "|"%char a2 eq_refl).
  rewrite mem_app in Hn. apply orb_false_iff in Hn as [_ Hn].
  apply mem_cons_false in Hn as [_ Hn].
  destruct (k_opt_from_bar a2 s' (Str.last (a1 +:+ String "|" a2) (Some "["%char))
              (Str.last a1 (Some "["%char)) (a1 +:+ String "|" a2) a1 Hn)
    as [r Hr]; [by eexists|].
  rewrite app_cons in Hmin. congruence.
Qed.

(** The group of a match of what closes the text of a link. *)
Lemma k_close_group (p : option ascii) (s g0 g rest : string) :
  k_close p s g0 = Some (g, rest) →
  Str.mem ")" g = false ∧ Str.mem Str.newline g = false
  ∧ ∃ s', s = "](" +:+ g +:+ String ")" s'.
Proof.
  unfold k_close.
  destruct s as [|x [|y s]]; simpl; [done|by destruct (Ascii.eqb x "]")|].
  destruct (Ascii.eqb_spec x "]") as [->|]; [|done].
  destruct (Ascii.eqb_spec y "(") as [->|]; [|done].
  intros H. apply (group_lazy_inv k_paren) in H as (s' & -> & Hn & Hk & Hmin);
    [|apply keeps_group_k_paren].
  simpl in *. split; [|split; [done|]].
  - destruct (Str.mem ")" g) eqn:E; [|done].
    apply mem_split in E as (a1 & a2 & ->).
    specialize (Hmin a1 ")"%char a2 eq_refl).
    rewrite app_cons in Hmin. unfold k_paren in Hmin.
    by rewrite rmatch_lit_eq in Hmin.
  - unfold k_paren in Hk. destruct s' as [|z s']; simpl in Hk; [done|].
    destruct (Ascii.eqb_spec z ")") as [->|]; [|done]. by exists s'.
Qed.

Lemma image_pattern_group (prev : option ascii) (s g rest : string) :
  match_here image_pattern prev s = Some (g, rest) →
  Str.mem ")" g = false ∧ Str.mem Str.newline g = false.
Proof.
  rewrite match_image_pattern.
  destruct s as [|x [|y s]]; simpl; [done|by destruct (Ascii.eqb x "!")|].
  destruct (Ascii.eqb x "!"); [|done]. destruct (Ascii.eqb y "["); [|done].
  intros (a & s' & _ & _ & H & _)%lazy_any_inv.
  apply k_close_group in H as (? & ? & _). done.
Qed.

Lemma asset_pattern_group (prev : option ascii) (s g rest : string) :
  match_here asset_pattern prev s = Some (g, rest) →
  Str.mem ")" g = false ∧ Str.mem Str.newline g = false.
Proof.
  rewrite match_asset_pattern. cbn [rmatch].
  assert (rmatch (Lit "[") (lazy_any k_close) prev s "" = Some (g, rest) →
          Str.mem ")" g = false ∧ Str.mem Str.newline g = false) as Hm.
  { destruct s as [|x s]; simpl; [done|]. destruct (Ascii.eqb x "["); [|done].
    intros (a & s' & _ & _ & H & _)%lazy_any_inv.
    apply k_close_group in H as (? & ? & _). done. }
  destruct prev as [x|]; [|exact Hm]. by destruct (Ascii.eqb x "!").
Qed.

(** Every string that a scan returns is the group of a match. *)
Lemma findall_Forall (r : regex) (P : string → Prop) :
  (∀ prev s g rest, match_here r prev s = Some (g, rest) → P g) →
  ∀ s skip prev, Forall P (findall_from r skip prev s).
Proof.
  intros Hr. induction s as [|c s IH]; intros skip prev; cbn [findall_from].
  - destruct skip; [|done].
    destruct (match_here r prev "") as [[g rest]|] eqn:E; [|done].
    constructor; [by eapply Hr|done].
  - destruct skip; [|apply IH].
    destruct (match_here r prev (String c s)) as [[g rest]|] eqn:E; [|apply IH].
    constructor; [by eapply Hr|apply IH].
Qed.

(** A scan of a text without the character that every match needs. *)
Lemma findall_nothing (r : regex) (c0 : ascii) :
  (∀ prev s res, match_here r prev s = Some res → Str.mem c0 s = true) →
  ∀ s prev, Str.mem c0 s = false → findall_from r 0 prev s = [].
Proof.
  intros Hr. induction s as [|c s IH]; intros prev Hs; cbn [findall_from].
  - destruct (match_here r prev "") as [[g rest]|] eqn:E; [|done].
    apply Hr in E. done.
  - destruct (match_here r prev (String c s)) as [[g rest]|] eqn:E.
    + apply Hr in E. congruence.
    + apply IH. by apply mem_cons_false in Hs as [_ ?].
Qed.

Lemma link_needs_bracket (prev : option ascii) (s : string) (res : string * string) :
  match_here link_pattern prev s = Some res → Str.mem "[" s = true.
Proof.
  rewrite match_link_pattern. destruct s as [|x s]; simpl; [done|].
  by destruct (Ascii.eqb x "[").
Qed.

Lemma image_needs_bracket (prev : option ascii) (s : string) (res : string * string) :
  match_here image_pattern prev s = Some res → Str.mem "[" s = true.
Proof.
  rewrite match_image_pattern.
  destruct s as [|x [|y s]]; simpl; [done|by destruct (Ascii.eqb x "!")|].
  destruct (Ascii.eqb x "!"); [|done].
  destruct (Ascii.eqb y "[") eqn:E; [|done]. intros _.
  by destruct (Ascii.eqb x "[").
Qed.

Lemma asset_needs_bracket (prev : option ascii) (s : string) (res : string * string) :
  match_here asset_pattern prev s = Some res → Str.mem "[" s = true.
Proof.
  rewrite match_asset_pattern. cbn [rmatch].
  assert (rmatch (Lit "[") (lazy_any k_close) prev s "" = Some res →
          Str.mem "[" s = true) as Hm.
  { destruct s as [|x s]; simpl; [done|]. by destruct (Ascii.eqb x "["). }
  destruct prev as [x|]; [|exact Hm]. by destruct (Ascii.eqb x "!").
Qed.

Lemma mem_cons_ne (c x : ascii) (a : string) :
  x ≠ c → Str.mem c a = false → Str.mem c (String x a) = false.
Proof. intros Hx Ha. cbn [Str.mem]. by destruct (Ascii.eqb_spec x c). Qed.

Lemma universal_newlines_mem (c : ascii) (s : string) :
  c ≠ Str.newline → Str.mem c s = false →
  Str.mem c (universal_newlines s) = false.
Proof.
  intros Hc. induction s as [|x s IH]; [done|].
  intros [Hx Hs]%mem_cons_false. cbn [universal_newlines].
  destruct (Ascii.eqb x "013").
  - assert (Str.mem c (String Str.newline (universal_newlines s)) = false) as Hn
      by (apply mem_cons_ne; [done|by apply IH]).
    destruct s as [|y s]; [exact Hn|].
    destruct (Ascii.eqb_spec y "010") as [->|Hy]; [by apply IH|].
    destruct y as [[] [] [] [] [] [] [] []]; try exact Hn. done.
  - apply mem_cons_ne; [done|by apply IH].
Qed.

(** X1.  Whatever the text, a wiki-link target that [find_linked_files]
    extracts holds no '|' and no newline: the display text of a link is
    never part of its target, and no target runs over the end of a line. *)
Theorem wiki_target_shape (content : string) :
  Forall (λ g, Str.mem "|" g = false ∧ Str.mem Str.newline g = false)
         (findall link_pattern content).
Proof.
  apply findall_Forall. intros prev s g rest H.
  apply link_pattern_group in H as (? & ? & _). done.
Qed.

(** X2.  Whatever the text, a reference that [find_asset_references]
    extracts, from an image or from a link, holds no ')' and no newline: a
    url is cut at its first closing parenthesis. *)
Theorem reference_url_shape (content : string) :
  Forall (λ g, Str.mem ")" g = false ∧ Str.mem Str.newline g = false)
         (asset_matches_of content).
Proof.
  unfold asset_matches_of. apply Forall_app. split; apply findall_Forall.
  - apply image_pattern_group.
  - apply asset_pattern_group.
Qed.

(** X3.  A target that can be read and holds no '[' has no linked files
    and no assets: both searches return the empty list after reading the
    file, with no probe and no warning. *)
Theorem no_bracket_no_reference (target_file data : string) (w : world) :
  stat w (Path target_file) = Some (File data) → utf8_valid data = true →
  Str.mem "[" data = false →
  find_linked_files target_file w = (Done [], add_trace w [Read (Path target_file)])
  ∧ find_asset_references target_file w
    = (Done [], add_trace w [Read (Path target_file)]).
Proof.
  intros Hs Hv Hb.
  assert (Str.mem "[" (universal_newlines data) = false) as Hc
    by (by apply universal_newlines_mem).
  unfold find_linked_files, find_asset_references.
  rewrite !bind_run. unfold read_text. rewrite Hs, Hv.
  unfold asset_matches_of, findall.
  rewrite (findall_nothing link_pattern "[" link_needs_bracket) by done.
  rewrite (findall_nothing image_pattern "[" image_needs_bracket) by done.
  rewrite (findall_nothing asset_pattern "[" asset_needs_bracket) by done.
  done.
Qed.

Lemma no_bracket_no_reference_witness :
  let w := MkWorld vault_urls [] [] in
  find_linked_files "v/plain.txt" w = (Done [], add_trace w [Read (Path "v/plain.txt")])
  ∧ find_asset_references "v/plain.txt" w
    = (Done [], add_trace w [Read (Path "v/plain.txt")]).
Proof.
  intros w. by apply (no_bracket_no_reference "v/plain.txt" "text" w).
Defined.

(** ** The output directory of [parse_arguments] *)

(** [mkdir] makes directories, nothing else. *)
Lemma mkdirs_new_dirs (m m' : gmap loc node) (cur : loc) (comps : list string) :
  mkdirs m cur comps = Some m' →
  ∀ l n, m' !! l = Some n → m !! l = None → n = Dir.
Proof.
  revert m cur. induction comps as [|c rest IH]; intros m cur; simpl.
  - destruct (m !! cur) as [[]|]; [done| |done]. intros [= <-] l n. congruence.
  - destruct (m !! cur) as [[]|]; [done| |done].
    destruct (m !! step_into cur c) eqn:E; [apply IH|].
    destruct (String.eqb c ".."); [done|]. intros H l n Hl Hm.
    destruct (decide (l = step_into cur c)) as [->|Hne].
    + apply mkdirs_incl in H.
      pose proof (lookup_weaken _ _ (step_into cur c) Dir
                    (lookup_insert_eq m (step_into cur c) Dir) H). congruence.
    + eapply (IH _ _ H); [done|]. by rewrite lookup_insert_ne.
Qed.

(** A path that leads to a file cannot be made a directory. *)
Lemma mkdirs_onto_file (m : gmap loc node) (cur : loc) (comps : list string)
    (l : loc) (data : string) :
  walk m cur comps = Some l → m !! l = Some (File data) →
  mkdirs m cur comps = None.
Proof.
  intros Hw Hl. destruct (mkdirs m cur comps) as [m'|] eqn:E; [|done].
  pose proof (mkdirs_incl _ _ _ _ E) as Hi.
  apply mkdirs_walk in E as [Hw' Hd].
  rewrite (walk_weaken _ _ _ _ _ Hi Hw) in Hw'. injection Hw' as ->.
  rewrite (lookup_weaken _ _ _ _ Hl Hi) in Hd. done.
Qed.

(** A path that leads to a directory is left as it is. *)
Lemma mkdirs_onto_dir (m : gmap loc node) (cur : loc) (comps : list string)
    (l : loc) :
  walk m cur comps = Some l → m !! l = Some Dir → mkdirs m cur comps = Some m.
Proof.
  revert cur. induction comps as [|c rest IH]; intros cur; simpl.
  - destruct (m !! cur) as [n|] eqn:E; [|done]. intros [= <-] H.
    rewrite E in H. by injection H as ->.
  - destruct (m !! cur) as [[]|] eqn:E; [done| |done]. intros Hw Hl.
    destruct (m !! step_into cur c) eqn:E2; [by apply IH|].
    destruct rest; simpl in Hw; by rewrite E2 in Hw.
Qed.

Lemma parse_arguments_raise (target_file output_directory : string) (w : world) :
  present w (Path target_file) = true →
  Str.lower (suffix (Path target_file)) = ".md" →
  mkdirs (fs w) (start_of w (Path output_directory))
    (parts (Path output_directory)) = None →
  parse_arguments target_file output_directory w =
  (Raise "OSError", add_trace w [Stat (Path target_file)]).
Proof.
  intros Hp Hs Hm. unfold parse_arguments. rewrite bind_run. unfold path_exists.
  fold (present w (Path target_file)). rewrite Hp. simpl.
  rewrite Hs. simpl. unfold mkdir_parents.
  change (start_of (log ?e w) ?p) with (start_of w p). simpl. by rewrite Hm.
Qed.

(** X4.  When [parse_arguments] returns, the output path leads to a
    directory.  Every entry of before is as it was, every new entry is a
    directory, the working directory is the same, and a well-formed file
    system stays well-formed. *)
Theorem parse_arguments_creates (target_file output_directory : string)
    (w w' : world) :
  parse_arguments target_file output_directory w = (Done (), w') →
  stat w' (Path output_directory) = Some Dir
  ∧ fs w ⊆ fs w'
  ∧ (∀ l n, fs w' !! l = Some n → fs w !! l = None → n = Dir)
  ∧ cwd w' = cwd w
  ∧ (wf_world w → wf_world w').
Proof.
  intros (_ & _ & m & Hm & ->)%parse_arguments_done.
  pose proof (mkdirs_incl _ _ _ _ Hm) as Hi.
  split.
  { apply mkdirs_walk in Hm as [Hw Hd]. unfold stat, locate.
    change ((walk m (start_of w (Path output_directory))
               (parts (Path output_directory)) ≫= λ l, m !! l) = Some Dir).
    by rewrite Hw. }
  split; [done|]. split; [by eapply mkdirs_new_dirs|]. split; [done|].
  intros (Hwf & Hr & Hc). split; [by eapply mkdirs_wf|].
  split; by eapply lookup_weaken.
Qed.

Lemma parse_arguments_creates_witness :
  let w := MkWorld vault_twice [] [] in
  let w' := (parse_arguments "v/t.md" "out/deep" w).2 in
  stat w' (Path "out/deep") = Some Dir ∧ fs w ⊆ fs w'.
Proof.
  intros w w'.
  destruct (parse_arguments_creates "v/t.md" "out/deep" w w') as (H1 & H2 & _);
    [by vm_compute|]. by split.
Defined.

(** X5.  When the target passes the checks and the output path names a
    regular file, [mkdir] raises (FileExistsError, an OSError) and the run
    ends there: after the one probe of the target, before any line is
    printed, with the file system as it was. *)
Theorem output_file_raises (target_file output_directory : string) (w : world)
    (data : string) :
  present w (Path target_file) = true →
  Str.lower (suffix (Path target_file)) = ".md" →
  stat w (Path output_directory) = Some (File data) →
  main target_file output_directory w =
  (Raise "OSError", add_trace w [Stat (Path target_file)]).
Proof.
  intros Hp Hs Ho. rewrite main_export, bind_run.
  rewrite parse_arguments_raise; [done..|].
  unfold stat in Ho. destruct (locate w _) as [l|] eqn:El; [|done].
  by eapply mkdirs_onto_file.
Qed.

Lemma output_file_raises_witness :
  main "v/t.md" "v/t.md" (MkWorld vault_twice [] []) =
  (Raise "OSError", MkWorld vault_twice [] [Stat (Path "v/t.md")]).
Proof.
  by apply (output_file_raises "v/t.md" "v/t.md" (MkWorld vault_twice [] [])
              "[[t]] and again [[t]]").
Defined.

(** X6.  A directory whose name ends in '.md' passes the checks of
    [parse_arguments]: the output directory is made and the first line is
    printed, then opening the target raises IsADirectoryError.  No probe for
    a linked file is made and nothing is copied. *)
Theorem directory_target_raises (target_file output_directory : string)
    (w : world) (m : gmap loc node) :
  stat w (Path target_file) = Some Dir →
  Str.lower (suffix (Path target_file)) = ".md" →
  mkdirs (fs w) (start_of w (Path output_directory))
    (parts (Path output_directory)) = Some m →
  main target_file output_directory w =
  (Raise "IsADirectoryError",
   add_trace (with_fs m w)
     [Stat (Path target_file); Mkdir (Path output_directory);
      Print (exporting_line target_file output_directory)]).
Proof.
  intros Ht Hs Hm. rewrite main_export, bind_run.
  rewrite (parse_arguments_run _ _ _ m); [|by apply bool_decide_eq_true|done..].
  unfold export. rewrite bind_run. unfold print at 1.
  rewrite bind_run. unfold find_linked_files. rewrite bind_run.
  unfold read_text at 1.
  change (stat (log ?e (add_trace (with_fs m w) ?evs)) ?p)
    with (stat (with_fs m w) p).
  rewrite (stat_weaken w m _ Dir); [|by eapply mkdirs_incl|done].
  unfold log, add_trace. simpl. by rewrite <- app_assoc.
Qed.

Lemma directory_target_raises_witness :
  let w := MkWorld vault_odd [] [] in
  main "v/dir.md" "v" w =
  (Raise "IsADirectoryError",
   add_trace (with_fs (fs w) w)
     [Stat (Path "v/dir.md"); Mkdir (Path "v");
      Print (exporting_line "v/dir.md" "v")]).
Proof.
  intros w. apply (directory_target_raises "v/dir.md" "v" w (fs w));
    [by vm_compute..|].
  apply (mkdirs_onto_dir _ _ _ ["v"]); by vm_compute.
Defined.

(** X7.  A target that is not valid UTF-8 passes the checks of
    [parse_arguments]: the output directory is made and the first line is
    printed, then reading the target raises UnicodeDecodeError.  Nothing is
    copied. *)
Theorem undecodable_target_raises (target_file output_directory : string)
    (w : world) (m : gmap loc node) (data : string) :
  stat w (Path target_file) = Some (File data) → utf8_valid data = false →
  Str.lower (suffix (Path target_file)) = ".md" →
  mkdirs (fs w) (start_of w (Path output_directory))
    (parts (Path output_directory)) = Some m →
  main target_file output_directory w =
  (Raise "UnicodeDecodeError",
   add_trace (with_fs m w)
     [Stat (Path target_file); Mkdir (Path output_directory);
      Print (exporting_line target_file output_directory);
      Read (Path target_file)]).
Proof.
  intros Ht Hv Hs Hm. rewrite main_export, bind_run.
  rewrite (parse_arguments_run _ _ _ m); [|by apply bool_decide_eq_true|done..].
  unfold export. rewrite bind_run. unfold print at 1.
  rewrite bind_run. unfold find_linked_files. rewrite bind_run.
  unfold read_text at 1.
  change (stat (log ?e (add_trace (with_fs m w) ?evs)) ?p)
    with (stat (with_fs m w) p).
  rewrite (stat_weaken w m _ (File data)); [|by eapply mkdirs_incl|done].
  rewrite Hv. unfold log, add_trace. simpl. by rewrite <- !app_assoc.
Qed.

Lemma undecodable_target_raises_witness :
  let w := MkWorld vault_odd [] [] in
  main "v/bad.md" "v" w =
  (Raise "UnicodeDecodeError",
   add_trace (with_fs (fs w) w)
     [Stat (Path "v/bad.md"); Mkdir (Path "v");
      Print (exporting_line "v/bad.md" "v"); Read (Path "v/bad.md")]).
Proof.
  intros w.
  apply (undecodable_target_raises "v/bad.md" "v" w (fs w)
           (String (ascii_of_nat 255) "")); [by vm_compute..|].
  apply (mkdirs_onto_dir _ _ _ ["v"]); by vm_compute.
Defined.

(** ** What the searches find *)















(** ** The name of a path built from a string *)

(** The text after the last separator stays the last piece. *)
Lemma split_snoc (sep : ascii) (a t : string) :
  Str.mem sep t = false →
  Str.split sep (a +:+ t)
  = removelast (Str.split sep a) ++ [List.last (Str.split sep a) "" +:+ t].
Proof.
  intros Ht. induction a as [|c a IH].
  - rewrite app_empty_l. by rewrite split_no_sep.
  - rewrite app_cons. cbn [Str.split]. rewrite IH.
    pose proof (split_nonempty sep a) as Hne.
    destruct (Str.split sep a) as [|piece rest]; [done|].
    destruct (Ascii.eqb c sep).
    + destruct rest; done.
    + destruct rest as [|r rs]; [done|]. done.
Qed.

(** What [splitroot] takes off the front is made of slashes. *)
Lemma splitroot_slashes (s : string) :
  ∃ q, s = q +:+ (splitroot s).2 ∧ (q = "" ∨ q = "/" ∨ q = "//").
Proof.
  assert (∀ c r, c ≠ "/"%char → splitroot (String c r) = ("", String c r)) as Hne.
  { intros c r Hc. destruct c as [[] [] [] [] [] [] [] []]; done. }
  destruct s as [|c1 s]; [by exists ""; auto|].
  destruct (decide (c1 = "/"%char)) as [->|H1];
    [|rewrite Hne by done; exists ""; auto].
  destruct s as [|c2 s]; [by exists "/"; auto|].
  destruct (decide (c2 = "/"%char)) as [->|H2].
  - destruct s as [|c3 s]; [by exists "//"; auto|].
    destruct (decide (c3 = "/"%char)) as [->|H3]; [by exists "/"; auto|].
    exists "//". split; [|auto].
    destruct c3 as [[] [] [] [] [] [] [] []]; done.
  - exists "/". split; [|auto].
    destruct c2 as [[] [] [] [] [] [] [] []]; done.
Qed.

Lemma append_nil_inv (a b : string) : a +:+ b = "" → a = "" ∧ b = "".
Proof. destruct a; [by rewrite app_empty_l|by rewrite app_cons]. Qed.

(** A string that ends in '.md' is the last component of its path. *)
Lemma parts_Path_md (s : string) :
  ends_with_md s → ∃ l z, parts (Path s) = l ++ [z] ∧ ends_with_md z.
Proof.
  intros (pre & x & y & -> & Hx & Hy).
  set (tail := String "." (String x (String y ""))).
  assert (Str.mem "/" tail = false) as Ht
    by (by destruct Hx as [-> | ->], Hy as [-> | ->]).
  destruct (splitroot_slashes (pre +:+ tail)) as (q & Hq & Hqs).
  unfold Path. destruct (splitroot (pre +:+ tail)) as [rt rel]. cbn [snd] in *.
  assert (∃ pre', rel = pre' +:+ tail) as [pre' ->].
  { destruct Hqs as [-> | [-> | ->]].
    - exists pre. by rewrite app_empty_l in Hq.
    - destruct pre as [|c pre]; [by rewrite app_empty_l in Hq|].
      rewrite !app_cons, app_empty_l in Hq. injection Hq as _ <-. by exists pre.
    - destruct pre as [|c [|c' pre]];
        [by rewrite app_empty_l in Hq| |].
      + rewrite !app_cons, !app_empty_l in Hq. injection Hq as _ Hq.
        by subst tail.
      + rewrite !app_cons, app_empty_l in Hq. injection Hq as _ _ <-.
        by exists pre. }
  rewrite split_snoc by done. rewrite List.filter_app. simpl.
  set (u := List.last (Str.split "/" pre') "").
  assert (real_part (u +:+ tail) = true) as ->.
  { apply real_part_spec. split; intros E.
    - by apply append_nil_inv in E as [_ ?].
    - apply (f_equal Str.length) in E. rewrite length_append in E.
      simpl in E. lia. }
  eexists _, _. split; [done|]. by exists u, x, y.
Qed.

Lemma name_Path_md (s : string) : ends_with_md s → ends_with_md (name (Path s)).
Proof.
  intros (l & z & H & Hz)%parts_Path_md. unfold name. rewrite H.
  by rewrite last_last.
Qed.

Lemma name_joinpath_md (base_dir : path) (s : string) :
  ends_with_md s → ends_with_md (name (base_dir // s)).
Proof.
  intros Hs. unfold joinpath. destruct (Str.startswith "/" s);
    [by apply name_Path_md|].
  apply parts_Path_md in Hs as (l & z & H & Hz). unfold name. simpl.
  by rewrite H, app_assoc, last_last.
Qed.

Lemma resolve_name_md (w : world) (base_dir p : path) (s : string) :
  ends_with_md s → resolve w base_dir s = Some p → ends_with_md (name p).
Proof.
  intros Hs. unfold resolve.
  destruct (regular w (Path s)); [intros [= <-]; by apply name_Path_md|].
  destruct (regular w (base_dir // s)); [|done].
  intros [= <-]. by apply name_joinpath_md.
Qed.

(** X10.  Every path that [find_linked_files] returns has a filename that
    ends in '.md', in some letter case: a wiki-link to a file of another
    kind is looked up with '.md' appended and never found under its own
    name. *)
Theorem linked_files_markdown (target_file : string) (w w' : world)
    (linked_files : list path) :
  find_linked_files target_file w = (Done linked_files, w') →
  Forall (λ p, ends_with_md (name p)) linked_files.
Proof.
  unfold find_linked_files. rewrite bind_run.
  destruct (read_text _ w) as [[content|?|?] w1]; [|done..].
  rewrite linked_loop_run. intros [= <- _]. simpl.
  apply Forall_forall. intros p (m & _ & H)%list_elem_of_omap.
  eapply resolve_name_md; [|exact H]. apply with_md_ends.
Qed.

Lemma linked_files_markdown_witness :
  Forall (λ p, ends_with_md (name p))
    [Path "vault/A/index.md"; Path "vault/B/index.md"].
Proof.
  apply (linked_files_markdown "vault/index.md" (MkWorld vault_index [] [])
           (find_linked_files "vault/index.md" (MkWorld vault_index [] [])).2).
  by vm_compute.
Defined.

(** ** The length of a renamed name *)

Lemma renamed_length (p : path) :
  Str.length (renamed p)
  = Str.length (name p) + 1 + Str.length (name (parent p)).
Proof.
  unfold renamed, renamed_with_dot, renamed_without_dot.
  destruct (cut_first_dot (name p)) as [[stem rest]|] eqn:E.
  - apply cut_first_dot_inv in E. rewrite E.
    rewrite !length_append. cbn [Str.length]. lia.
  - rewrite !length_append. cbn [Str.length]. lia.
Qed.

(** X11.  A file is copied under a name other than its own exactly when
    its own name is taken; the new name is then longer than its own by one
    character and the name of its directory. *)
Theorem rename_changes_name (p : path) (used : gset string) :
  (name p ∈ used ↔ output_filename_of p used ≠ name p)
  ∧ (name p ∈ used →
     Str.length (output_filename_of p used)
     = Str.length (name p) + 1 + Str.length (name (parent p))).
Proof.
  rewrite output_filename_cases. split.
  - case_decide; split; try done. intros _ E.
    apply (f_equal Str.length) in E. rewrite renamed_length in E. lia.
  - intros H. rewrite decide_True by done. apply renamed_length.
Qed.

(** ** What the copies write *)















(** ** A whole run *)







(** X15.  When the output directory is the directory that holds the
    target, the run ends in SameFileError at the first copy: the searches
    have run and printed their warnings, nothing is written, and the file
    system is as it was. *)
Theorem same_directory_raises (target_file output_directory data : string)
    (w : world) (d : loc) :
  wf_world w →
  stat w (Path target_file) = Some (File data) → utf8_valid data = true →
  Str.lower (suffix (Path target_file)) = ".md" →
  locate w (Path output_directory) = Some d → fs w !! d = Some Dir →
  locate w (Path target_file) = Some (d ++ [name (Path target_file)]) →
  main target_file output_directory w =
  (Raise "SameFileError",
   add_trace w
     ([Stat (Path target_file); Mkdir (Path output_directory);
       Print (exporting_line target_file output_directory)]
      ++ search_events w target_file (universal_newlines data))).
Proof.
  intros Hw Hs Hv Hsuf Hl Hd Ht.
  set (n := name (Path target_file)) in *.
  assert (good_name n) as Hn.
  { apply (regular_good_name w); [done|apply wf_Path|].
    unfold regular. by rewrite Hs. }
  assert (fs w !! (d ++ [n]) = Some (File data)) as Hfile.
  { unfold stat in Hs. rewrite Ht in Hs. exact Hs. }
  assert (locate w (Path output_directory // n) = Some (d ++ [n])) as Hdst.
  { rewrite locate_joinpath_good by apply Hn. rewrite Hl. simpl. rewrite Hd.
    unfold step_into. rewrite (proj2 (String.eqb_neq _ _) (proj2 Hn)).
    by rewrite Hfile. }
  rewrite main_export, bind_run.
  rewrite (parse_arguments_run _ _ _ (fs w));
    [|apply bool_decide_eq_true; by eexists|done|by eapply mkdirs_onto_dir].
  assert (with_fs (fs w) w = w) as -> by (by destruct w).
  rewrite (export_run _ _ _ data); [|exact Hs|exact Hv].
  unfold copy_files_to_output. rewrite bind_run. unfold copy2 at 1.
  match goal with
  | |- context [stat ?W (Path output_directory // name (Path target_file))] =>
      change (stat W (Path output_directory // name (Path target_file)))
        with (stat w (Path output_directory // n));
      change (samefile W) with (samefile w)
  end.
  assert (stat w (Path output_directory // n) = Some (File data)) as ->.
  { unfold stat. rewrite Hdst. exact Hfile. }
  cbv beta iota zeta. fold n.
  assert (samefile w (Path target_file) (Path output_directory // n) = true) as ->.
  { unfold samefile. rewrite Ht, Hdst. by apply bool_decide_eq_true. }
  f_equal. unfold add_trace. simpl. f_equal. by rewrite <- app_assoc.
Qed.

Lemma same_directory_raises_witness :
  let w := MkWorld vault_twice [] [] in
  main "v/t.md" "v" w =
  (Raise "SameFileError",
   add_trace w
     ([Stat (Path "v/t.md"); Mkdir (Path "v"); Print (exporting_line "v/t.md" "v")]
      ++ search_events w "v/t.md" "[[t]] and again [[t]]")).
Proof.
  intros w.
  apply (same_directory_raises "v/t.md" "v" "[[t]] and again [[t]]" w ["v"]);
    try (by vm_compute).
  by_decision (wf_world_dec w).
Defined.


